(** * indent-binary-ops: the indentation rule for binary operators

    A shallow embedding of the rule [indent-binary-ops] (the [create]
    closure of the rule module: [indentStr], [getIndentOfLine],
    [subtractionIndent], [getTargetIndent], [firstTokenOfLine],
    [lastTokenOfLine], [isGreaterThanCloseBracketOfLine],
    [hasExclusivelyCloseBracketOfLine], [handler] and the four visitor
    entries), together with the properties its specification states.

    Conventions of the embedding:
    - a JavaScript string is the list of its UTF-16 code units, so that
      [length], [++], [drop] and [replicate] are [.length], [+],
      [.slice(n)] and [.repeat(n)];
    - the per-file [indentCache] ([Map<number, string>]) is a [gmap] that
      is threaded through the calls of [handler];
    - a call either completes normally or throws (dereferencing [null] or
      [undefined] is a [TypeError]). *)

From Stdlib Require Import String Ascii NArith DecimalString.
From stdpp Require Import base decidable option numbers list sorting gmap.

Set Default Proof Using "Type".

(** ** JavaScript strings *)

Abbreviation jsstring := (list N).

Definition lit (s : string) : jsstring :=
  (λ a, N_of_ascii a) <$> list_ascii_of_string s.
Arguments lit s%_string.

Definition TAB : N := 9%N.
Definition SPACE : N := 32%N.

(** [Array.prototype.includes] on an array of strings. *)
Definition includes (xs : list jsstring) (x : jsstring) : bool :=
  existsb (λ y, bool_decide (y = x)) xs.

(** The template-literal rendering of a non-negative integer. *)
Definition numberToString (n : nat) : jsstring :=
  lit (NilZero.string_of_uint (Nat.to_uint n)).

(** The class [\s] of a regular expression: white space and line
    terminators, by code unit. *)
Definition isWhiteSpace (c : N) : bool :=
  (bool_decide (c ∈ [9; 10; 11; 12; 13; 32; 160; 5760; 8232; 8233; 8239; 8287; 12288; 65279]%N))
  || ((8192 <=? c)%N && (c <=? 8202)%N).

(** [s.match(/^\s*/)[0]]: the longest prefix of white space. The pattern
    matches every string, so the result is never [null]. *)
Fixpoint matchLeadingWhiteSpace (s : jsstring) : jsstring :=
  match s with
  | c :: s' => if isWhiteSpace c then c :: matchLeadingWhiteSpace s' else []
  | [] => []
  end.

(** ** The data supplied by the host *)

Record Position := { line : nat; column : nat }.
Record SourceLocation := { start : Position; end_ : Position }.

#[global] Instance Position_eq_dec : EqDecision Position.
Proof. solve_decision. Defined.
#[global] Instance SourceLocation_eq_dec : EqDecision SourceLocation.
Proof. solve_decision. Defined.

(** Token categories of the token and comment stream; [Block], [Line] and
    [Shebang] are the categories of comments. *)
Inductive TokenType :=
  | Boolean | Null | Identifier | Keyword | Punctuator | JSXIdentifier
  | JSXText | Numeric | StringToken | RegularExpression | Template
  | PrivateIdentifier | Block | Line | Shebang.

#[global] Instance TokenType_eq_dec : EqDecision TokenType.
Proof. solve_decision. Defined.

Module Token.
Record t := { type : TokenType; value : jsstring; range : nat * nat; loc : SourceLocation }.

Definition isComment (tok : t) : bool :=
  bool_decide (type tok ∈ [Block; Line; Shebang]).
End Token.

#[global] Instance Token_eq_dec : EqDecision Token.t.
Proof. solve_decision. Defined.

Module Node.
(** What the rule reads of a node's parent: [parent.type] and
    [parent.range]. *)
Record parentRef := { ptype : jsstring; prange : nat * nat }.

Record t := {
  type : jsstring;
  range : nat * nat;
  loc : SourceLocation;
  parent : option parentRef
}.
End Node.

(** ** The host's [SourceCode] object

    The rule consumes [sourceCode.lines], [sourceCode.tokensAndComments],
    [getFirstToken], [getTokenBefore] and [getIndexFromLoc]. The three
    lookups belong to the host; they are modelled here by their contract
    on the token stream: comments are skipped, positions are compared by
    [range]. *)
Record SourceCode := {
  text : jsstring;
  lines : list jsstring;
  lineStartIndices : list nat;
  tokensAndComments : list Token.t
}.

Module Host.
Definition tokens (sc : SourceCode) : list Token.t :=
  List.filter (λ tok, negb (Token.isComment tok)) (tokensAndComments sc).

(** The last token that starts before offset [pos]. *)
Definition tokenBeforeOffset (sc : SourceCode) (pos : nat) : option Token.t :=
  List.find (λ tok, (Token.range tok).1 <? pos) (rev (tokens sc)).

Definition getTokenBefore (sc : SourceCode) (tok : Token.t) : option Token.t :=
  tokenBeforeOffset sc (Token.range tok).1.

Definition getTokenBeforeNode (sc : SourceCode) (node : Node.t) : option Token.t :=
  tokenBeforeOffset sc (Node.range node).1.

(** The first token inside the range of [node]. *)
Definition getFirstToken (sc : SourceCode) (node : Node.t) : option Token.t :=
  match List.find (λ tok, (Node.range node).1 <=? (Token.range tok).1) (tokens sc) with
  | Some tok => if (Token.range tok).2 <=? (Node.range node).2 then Some tok else None
  | None => None
  end.

(** The offset of a location: the start of its line plus its column. The
    host's check that the location lies inside the text is left out. *)
Definition getIndexFromLoc (sc : SourceCode) (p : Position) : nat :=
  match line p with
  | 0 => 0
  | S k => default 0 (lineStartIndices sc !! k) + column p
  end.

(** Applying the fixes of one pass to the text, as the host's fixer does:
    the fixes are taken in the order of their ranges; a fix that starts
    at or before the end of the previous one, or whose range is reversed,
    is left out; the text between two fixes is kept. [lastPos] is [None]
    before the first fix. *)
Definition Fix : Type := nat * nat * jsstring.

Definition fixRangeLe (a b : Fix) : Prop :=
  a.1.1 < b.1.1 ∨ (a.1.1 = b.1.1 ∧ a.1.2 ≤ b.1.2).

#[global] Instance fixRangeLe_dec a b : Decision (fixRangeLe a b).
Proof. unfold fixRangeLe. apply _. Defined.

Fixpoint applyFixesFrom (txt : jsstring) (lastPos : option nat)
    (fixes : list Fix) : jsstring :=
  match fixes with
  | [] => drop (default 0 lastPos) txt
  | (s, e, repl) :: rest =>
      if from_option (λ p, s <=? p) false lastPos || (e <? s)
      then applyFixesFrom txt lastPos rest
      else take (s - default 0 lastPos) (drop (default 0 lastPos) txt)
             ++ repl ++ applyFixesFrom txt (Some e) rest
  end.

Definition applyFixes (txt : jsstring) (fixes : list Fix) : jsstring :=
  applyFixesFrom txt None (merge_sort fixRangeLe fixes).
End Host.

(** ** Completions

    The result of running a piece of the rule: it returns a value, or it
    throws. [OutOfFuel] is the result of a loop whose fuel ran out; the
    loop of [handler] is given enough fuel for it never to happen
    ([handler_terminates]). *)
Inductive completion (A : Type) :=
  | Normal (a : A)
  | Throws
  | OutOfFuel.
Arguments Normal {A} a.
Arguments Throws {A}.
Arguments OutOfFuel {A}.

Definition bind {A B} (m : completion A) (k : A → completion B) : completion B :=
  match m with
  | Normal a => k a
  | Throws => Throws
  | OutOfFuel => OutOfFuel
  end.

Notation "'let!' x := m 'in' k" := (bind m (λ x, k))
  (at level 10, x pattern, m at level 100, k at level 200).

(** [x!] followed by a property access: a [null] makes the access throw. *)
Definition nonNull {A} (o : option A) : completion A :=
  match o with
  | Some a => Normal a
  | None => Throws
  end.

(** ** The rule *)

(** [options[0]]: ['tab'], an integer, or absent. *)
Inductive Option0 := OptTab | OptNumber (n : nat) | OptUndefined.

Inductive MessageIds := wrongIndentation.

Record Report := {
  r_loc : SourceLocation;
  r_messageId : MessageIds;
  r_expected : jsstring;
  r_fixRange : nat * nat;
  r_fixText : jsstring
}.

(** The message template ['Expected indentation of {{expected}}']. *)
Definition message (r : Report) : jsstring :=
  lit "Expected indentation of " ++ r_expected r.

Definition fixOf (r : Report) : Host.Fix :=
  (r_fixRange r, r_fixText r).

Section Rule.
Context (sourceCode : SourceCode) (options0 : Option0).

Definition indentStr : jsstring :=
  match options0 with
  | OptTab => [TAB]
  | OptNumber n => replicate n SPACE
  | OptUndefined => replicate 2 SPACE
  end.

Definition getIndentOfLine (indentCache : gmap nat jsstring) (ln : nat)
    : completion jsstring :=
  match indentCache !! ln with
  | Some s => Normal s
  | None =>
      match ln with
      | 0 => Throws
      | S k => let! l := nonNull (lines sourceCode !! k) in
               Normal (matchLeadingWhiteSpace l)
      end
  end.

Definition subtractionIndent (indent : jsstring) : jsstring :=
  match options0 with
  | OptTab => drop 1 indent
  | OptNumber n => drop n indent
  | OptUndefined => drop 2 indent
  end.

Definition getTargetIndent (indent : jsstring)
    (needAdditionIndent needSubtractionIndent : bool) : jsstring :=
  if needAdditionIndent && negb needSubtractionIndent then indent ++ indentStr
  else if negb needAdditionIndent && needSubtractionIndent then subtractionIndent indent
  else indent.

Definition firstTokenOfLine (ln : nat) : option Token.t :=
  List.find (λ token, line (start (Token.loc token)) =? ln)
    (tokensAndComments sourceCode).

Definition lastTokenOfLine (ln : nat) : option Token.t :=
  List.find (λ token, line (end_ (Token.loc token)) =? ln)
    (rev (tokensAndComments sourceCode)).

Definition isGreaterThanCloseBracketOfLine (ln : nat) : bool :=
  let tokensAndCommentsOfLine :=
    List.filter (λ token, line (start (Token.loc token)) =? ln)
      (tokensAndComments sourceCode) in
  let '(openBracketCount, closeBracketCount) :=
    fold_left
      (λ '(o, c) token,
         (if bool_decide (Token.value token = lit "(") then S o else o,
          if bool_decide (Token.value token = lit ")") then S c else c))
      tokensAndCommentsOfLine (0, 0) in
  openBracketCount <? closeBracketCount.

Definition hasExclusivelyCloseBracketOfLine (ln : nat) : bool :=
  negb (existsb
          (λ token, (line (start (Token.loc token)) =? ln)
                    && negb (includes [lit ")"; lit "}"; lit "]"] (Token.value token)))
          (tokensAndComments sourceCode)).

(** *** The backward walk over opening parentheses

    [while (tokenOperator.value === '(') { ... }]: one unit of fuel is
    one turn of the loop. *)
Inductive walkResult :=
  | Aborted
  | Found (tokenRight tokenOperator : Token.t).

Fixpoint walk (fuel : nat) (right : Node.t)
    (tokenRight tokenOperator : Token.t) : completion walkResult :=
  if bool_decide (Token.value tokenOperator = lit "(") then
    match fuel with
    | 0 => OutOfFuel
    | S fuel' =>
        let tokenRight := tokenOperator in
        let! tokenOperator := nonNull (Host.getTokenBefore sourceCode tokenRight) in
        let! parent := nonNull (Node.parent right) in
        if (Token.range tokenOperator).1 <=? (Node.prange parent).1 then Normal Aborted
        else walk fuel' right tokenRight tokenOperator
    end
  else Normal (Found tokenRight tokenOperator).

Definition walkFuel : nat := length (Host.tokens sourceCode).

(** The tokens of a pair: the first token of the operand, the operator
    before it, with the opening parentheses in between skipped. *)
Definition resolve (right : Node.t) : completion walkResult :=
  let! tokenRight := nonNull (Host.getFirstToken sourceCode right) in
  let! tokenOperator := nonNull (Host.getTokenBefore sourceCode tokenRight) in
  walk walkFuel right tokenRight tokenOperator.

(** *** The two booleans of the classification

    [firstTokenOfLineLeft] and [lastTokenOfLineLeft] are the first and
    the last token of the line of [tokenLeft]. The disjunction is
    evaluated from left to right and stops at the first disjunct that
    holds; only the last one reads an indentation. *)
Definition needAdditionIndent (indentCache : gmap nat jsstring) (node : Node.t)
    (tokenLeft : Token.t) (tokenBeforeAll firstTokenOfLineLeft lastTokenOfLineLeft : option Token.t)
    : completion bool :=
  if from_option
       (λ first, bool_decide (Token.type first = Keyword)
                 && negb (includes [lit "typeof"; lit "instanceof"; lit "this"] (Token.value first)))
       false firstTokenOfLineLeft
  then Normal true
  else if from_option
       (λ first, bool_decide (Token.type first = Identifier)
                 && bool_decide (Token.value first = lit "type")
                 && bool_decide (Node.ptype <$> Node.parent node = Some (lit "TSTypeAliasDeclaration")))
       false firstTokenOfLineLeft
  then Normal true
  else if includes [lit ":"; lit "["; lit "("; lit "<"; lit "="]
            (from_option Token.value [] lastTokenOfLineLeft)
  then Normal true
  else if includes [lit "["; lit "("; lit "=>"; lit ":"]
            (from_option Token.value [] tokenBeforeAll)
          && bool_decide ((λ t, line (start (Token.loc t))) <$> firstTokenOfLineLeft
                          = (λ t, line (start (Token.loc t))) <$> tokenBeforeAll)
  then Normal true
  else if includes [lit "||"; lit "&&"] (from_option Token.value [] lastTokenOfLineLeft)
          && (line (start (Node.loc node)) =? line (start (Token.loc tokenLeft)))
  then let! indent := getIndentOfLine indentCache (line (start (Node.loc node))) in
       Normal (negb (column (start (Node.loc node)) =? length indent))
  else Normal false.

Definition needSubtractionIndent (tokenLeft : Token.t)
    (lastTokenOfLineLeft : option Token.t) : bool :=
  bool_decide (Token.value <$> lastTokenOfLineLeft = Some (lit ")"))
  && isGreaterThanCloseBracketOfLine (line (start (Token.loc tokenLeft)))
  && negb (hasExclusivelyCloseBracketOfLine (line (start (Token.loc tokenLeft)))).

(** The [expected] datum of the message. *)
Definition expectedOf (indentTarget : jsstring) : jsstring :=
  numberToString (length indentTarget) ++ lit " "
    ++ (match options0 with OptTab => lit "tab" | _ => lit "space" end)
    ++ (if length indentTarget =? 1 then [] else lit "s").

Definition reportOf (ln : nat) (indentRight indentTarget : jsstring) : Report :=
  let start := {| line := ln; column := 0 |} in
  let end_ := {| line := ln; column := length indentRight |} in
  {| r_loc := {| start := start; end_ := end_ |};
     r_messageId := wrongIndentation;
     r_expected := expectedOf indentTarget;
     r_fixRange := (Host.getIndexFromLoc sourceCode start, Host.getIndexFromLoc sourceCode end_);
     r_fixText := indentTarget |}.

(** *** The handler

    [check] is the body of [handler] from [isMultiline] on; [evaluate]
    is the body after the walk, which takes the token before the
    operator as [tokenLeft]. The result is the cache after the call and
    the violations reported by it. *)
Definition check (indentCache : gmap nat jsstring) (node : Node.t)
    (tokenRight tokenLeft : Token.t) (tokenBeforeAll : option Token.t)
    : completion (gmap nat jsstring * list Report) :=
  let isMultiline :=
    negb (line (start (Token.loc tokenRight)) =? line (start (Token.loc tokenLeft))) in
  if negb isMultiline then Normal (indentCache, [])
  else
    let firstTokenOfLineLeft := firstTokenOfLine (line (start (Token.loc tokenLeft))) in
    let lastTokenOfLineLeft := lastTokenOfLine (line (start (Token.loc tokenLeft))) in
    let! needAddition :=
      needAdditionIndent indentCache node tokenLeft tokenBeforeAll
        firstTokenOfLineLeft lastTokenOfLineLeft in
    let needSubtraction := needSubtractionIndent tokenLeft lastTokenOfLineLeft in
    let! indentLeft := getIndentOfLine indentCache (line (start (Token.loc tokenLeft))) in
    let! indentRight := getIndentOfLine indentCache (line (start (Token.loc tokenRight))) in
    let indentTarget := getTargetIndent indentLeft needAddition needSubtraction in
    if bool_decide (indentTarget ≠ indentRight) then
      Normal (<[line (start (Token.loc tokenRight)) := indentTarget]> indentCache,
              [reportOf (line (start (Token.loc tokenRight))) indentRight indentTarget])
    else Normal (indentCache, []).

Definition evaluate (indentCache : gmap nat jsstring) (node : Node.t)
    (tokenRight tokenOperator : Token.t)
    : completion (gmap nat jsstring * list Report) :=
  let tokenBeforeAll := Host.getTokenBeforeNode sourceCode node in
  let! tokenLeft := nonNull (Host.getTokenBefore sourceCode tokenOperator) in
  check indentCache node tokenRight tokenLeft tokenBeforeAll.

Definition handler (indentCache : gmap nat jsstring) (node right : Node.t)
    : completion (gmap nat jsstring * list Report) :=
  if line (start (Node.loc node)) =? line (end_ (Node.loc node))
  then Normal (indentCache, [])
  else
    let! w := resolve right in
    match w with
    | Aborted => Normal (indentCache, [])
    | Found tokenRight tokenOperator => evaluate indentCache node tokenRight tokenOperator
    end.

(** *** The visitor

    The host calls one entry per node of the four kinds, in the order of
    its traversal. [types.forEach] runs [handler] on the members in
    order; a throw ends the pass. *)
Inductive Visit :=
  | BinaryExpression (node right : Node.t)
  | LogicalExpression (node right : Node.t)
  | TSUnionType (node : Node.t) (types : list Node.t)
  | TSIntersectionType (node : Node.t) (types : list Node.t).

Fixpoint forEach (indentCache : gmap nat jsstring) (node : Node.t)
    (types : list Node.t) : completion (gmap nat jsstring * list Report) :=
  match types with
  | [] => Normal (indentCache, [])
  | type :: rest =>
      let! (indentCache, reports) := handler indentCache node type in
      let! (indentCache, reports') := forEach indentCache node rest in
      Normal (indentCache, reports ++ reports')
  end.

Definition visit (indentCache : gmap nat jsstring) (v : Visit)
    : completion (gmap nat jsstring * list Report) :=
  match v with
  | BinaryExpression node rhs => handler indentCache node rhs
  | LogicalExpression node rhs => handler indentCache node rhs
  | TSUnionType node types =>
      if 1 <? length types then forEach indentCache node types
      else Normal (indentCache, [])
  | TSIntersectionType node types =>
      if 1 <? length types then forEach indentCache node types
      else Normal (indentCache, [])
  end.

Fixpoint traverse (indentCache : gmap nat jsstring) (visits : list Visit)
    : completion (gmap nat jsstring * list Report) :=
  match visits with
  | [] => Normal (indentCache, [])
  | v :: rest =>
      let! (indentCache, reports) := visit indentCache v in
      let! (indentCache, reports') := traverse indentCache rest in
      Normal (indentCache, reports ++ reports')
  end.

(** One pass over a file: [create] makes the cache, empty, and the
    traversal runs the visitor. *)
Definition analyse (visits : list Visit) : completion (list Report) :=
  let! (_, reports) := traverse ∅ visits in Normal reports.
End Rule.

(** ** Building sources

    A source is given by its text and its token stream. [sourceOf] derives
    [lines] and [lineStartIndices] from the text the way the host does
    (lines end at a line break); [wellFormed] checks a token stream
    against the text. *)
Definition isLineBreak (c : N) : bool :=
  bool_decide (c ∈ [10; 13; 8232; 8233]%N).

Fixpoint splitLinesFrom (cur : jsstring) (s : jsstring) : list jsstring :=
  match s with
  | [] => [rev cur]
  | c :: s' =>
      if isLineBreak c then
        match c, s' with
        | 13%N, 10%N :: s'' => rev cur :: splitLinesFrom [] s''
        | _, _ => rev cur :: splitLinesFrom [] s'
        end
      else splitLinesFrom (c :: cur) s'
  end.

Definition splitLines (s : jsstring) : list jsstring := splitLinesFrom [] s.

Fixpoint lineStartsFrom (pos : nat) (s : jsstring) : list nat :=
  match s with
  | [] => []
  | c :: s' =>
      if isLineBreak c then
        match c, s' with
        | 13%N, 10%N :: s'' => (pos + 2) :: lineStartsFrom (pos + 2) s''
        | _, _ => (pos + 1) :: lineStartsFrom (pos + 1) s'
        end
      else lineStartsFrom (pos + 1) s'
  end.

Definition sourceOf (txt : jsstring) (stream : list Token.t) : SourceCode :=
  {| text := txt;
     lines := splitLines txt;
     lineStartIndices := 0 :: lineStartsFrom 0 txt;
     tokensAndComments := stream |}.

Definition joinLines (ls : list jsstring) : jsstring :=
  match ls with
  | [] => []
  | l :: rest => l ++ concat ((λ l', 10%N :: l') <$> rest)
  end.

Definition slice (s : jsstring) (r : nat * nat) : jsstring :=
  take (r.2 - r.1) (drop r.1 s).

(** The raw text of a token: a comment's value leaves its delimiters out. *)
Definition rawText (tok : Token.t) : jsstring :=
  match Token.type tok with
  | Block => lit "/*" ++ Token.value tok ++ lit "*/"
  | Line => lit "//" ++ Token.value tok
  | Shebang => lit "#!" ++ Token.value tok
  | _ => Token.value tok
  end.

Definition tokenInText (sc : SourceCode) (tok : Token.t) : bool :=
  bool_decide (slice (text sc) (Token.range tok) = rawText tok)
  && (Host.getIndexFromLoc sc (start (Token.loc tok)) =? (Token.range tok).1)
  && (Host.getIndexFromLoc sc (end_ (Token.loc tok)) =? (Token.range tok).2).

Fixpoint inOrder (lastEnd : nat) (stream : list Token.t) : bool :=
  match stream with
  | [] => true
  | tok :: rest =>
      (lastEnd <=? (Token.range tok).1)
      && ((Token.range tok).1 <? (Token.range tok).2)
      && inOrder (Token.range tok).2 rest
  end.

Definition nodeInText (sc : SourceCode) (node : Node.t) : bool :=
  (Host.getIndexFromLoc sc (start (Node.loc node)) =? (Node.range node).1)
  && (Host.getIndexFromLoc sc (end_ (Node.loc node)) =? (Node.range node).2).

Definition visitNodes (v : Visit) : list Node.t :=
  match v with
  | BinaryExpression node rhs | LogicalExpression node rhs => [node; rhs]
  | TSUnionType node types | TSIntersectionType node types => node :: types
  end.

Definition wellFormed (sc : SourceCode) (visits : list Visit) : bool :=
  forallb (tokenInText sc) (tokensAndComments sc)
  && inOrder 0 (tokensAndComments sc)
  && forallb (nodeInText sc) (visits ≫= visitNodes).

Definition mkToken (ty : TokenType) (v : string) (offset ln col : nat) : Token.t :=
  {| Token.type := ty; Token.value := lit v;
     Token.range := (offset, offset + length (lit v));
     Token.loc := {| start := {| line := ln; column := col |};
                     end_ := {| line := ln; column := col + length (lit v) |} |} |}.

Definition mkBlockComment (v : string) (offset ln col : nat) : Token.t :=
  {| Token.type := Block; Token.value := lit v;
     Token.range := (offset, offset + length (lit v) + 4);
     Token.loc := {| start := {| line := ln; column := col |};
                     end_ := {| line := ln; column := col + length (lit v) + 4 |} |} |}.

Definition mkNode (ty : string) (range : nat * nat) (l1 c1 l2 c2 : nat)
    (pty : string) (prange : nat * nat) : Node.t :=
  {| Node.type := lit ty; Node.range := range;
     Node.loc := {| start := {| line := l1; column := c1 |};
                    end_ := {| line := l2; column := c2 |} |};
     Node.parent := Some {| Node.ptype := lit pty; Node.prange := prange |} |}.

(** ** Sample files *)

Module Samples.
(** A type assertion at the start of a file:
<<
<A
| B>x
>> *)
Definition assertionTokens : list Token.t :=
  [ mkToken Punctuator "<" 0 1 0; mkToken Identifier "A" 1 1 1;
    mkToken Punctuator "|" 3 2 0; mkToken Identifier "B" 5 2 2;
    mkToken Punctuator ">" 6 2 3; mkToken Identifier "x" 7 2 4 ].
Definition assertion : SourceCode :=
  sourceOf (joinLines [lit "<A"; lit "| B>x"]) assertionTokens.
Definition assertionUnion : Node.t :=
  mkNode "TSUnionType" (1, 6) 1 1 2 3 "TSTypeAssertion" (0, 8).
Definition assertionA : Node.t :=
  mkNode "TSTypeReference" (1, 2) 1 1 1 2 "TSUnionType" (1, 6).
Definition assertionB : Node.t :=
  mkNode "TSTypeReference" (5, 6) 2 2 2 3 "TSUnionType" (1, 6).
Definition assertionVisits : list Visit :=
  [ TSUnionType assertionUnion [assertionA; assertionB] ].

(** A chain of logical operators, before and after the fixes of one pass:
<<
const x = a ||          const x = a ||
b ||                      b ||
c                       c
>> *)
Definition chainTokens : list Token.t :=
  [ mkToken Keyword "const" 0 1 0; mkToken Identifier "x" 6 1 6;
    mkToken Punctuator "=" 8 1 8; mkToken Identifier "a" 10 1 10;
    mkToken Punctuator "||" 12 1 12; mkToken Identifier "b" 15 2 0;
    mkToken Punctuator "||" 17 2 2; mkToken Identifier "c" 20 3 0 ].
Definition chain : SourceCode :=
  sourceOf (joinLines [lit "const x = a ||"; lit "b ||"; lit "c"]) chainTokens.
Definition chainOuter : Node.t :=
  mkNode "LogicalExpression" (10, 21) 1 10 3 1 "VariableDeclarator" (6, 21).
Definition chainInner : Node.t :=
  mkNode "LogicalExpression" (10, 16) 1 10 2 1 "LogicalExpression" (10, 21).
Definition chainB : Node.t :=
  mkNode "Identifier" (15, 16) 2 0 2 1 "LogicalExpression" (10, 16).
Definition chainC : Node.t :=
  mkNode "Identifier" (20, 21) 3 0 3 1 "LogicalExpression" (10, 21).
Definition chainVisits : list Visit :=
  [ LogicalExpression chainOuter chainC; LogicalExpression chainInner chainB ].

Definition chainFixedTokens : list Token.t :=
  [ mkToken Keyword "const" 0 1 0; mkToken Identifier "x" 6 1 6;
    mkToken Punctuator "=" 8 1 8; mkToken Identifier "a" 10 1 10;
    mkToken Punctuator "||" 12 1 12; mkToken Identifier "b" 17 2 2;
    mkToken Punctuator "||" 19 2 4; mkToken Identifier "c" 22 3 0 ].
Definition chainFixed : SourceCode :=
  sourceOf (joinLines [lit "const x = a ||"; lit "  b ||"; lit "c"]) chainFixedTokens.
Definition chainFixedOuter : Node.t :=
  mkNode "LogicalExpression" (10, 23) 1 10 3 1 "VariableDeclarator" (6, 23).
Definition chainFixedInner : Node.t :=
  mkNode "LogicalExpression" (10, 18) 1 10 2 3 "LogicalExpression" (10, 23).
Definition chainFixedB : Node.t :=
  mkNode "Identifier" (17, 18) 2 2 2 3 "LogicalExpression" (10, 18).
Definition chainFixedC : Node.t :=
  mkNode "Identifier" (22, 23) 3 0 3 1 "LogicalExpression" (10, 23).
Definition chainFixedVisits : list Visit :=
  [ LogicalExpression chainFixedOuter chainFixedC;
    LogicalExpression chainFixedInner chainFixedB ].

(** A closing parenthesis after a comment:
<<
foo(a
/* c */ )
+ b
>> *)
Definition commentTokens : list Token.t :=
  [ mkToken Identifier "foo" 0 1 0; mkToken Punctuator "(" 3 1 3;
    mkToken Identifier "a" 4 1 4; mkBlockComment " c " 6 2 0;
    mkToken Punctuator ")" 14 2 8; mkToken Punctuator "+" 16 3 0;
    mkToken Identifier "b" 18 3 2 ].
Definition comment : SourceCode :=
  sourceOf (joinLines [lit "foo(a"; lit "/* c */ )"; lit "+ b"]) commentTokens.
Definition commentSum : Node.t :=
  mkNode "BinaryExpression" (0, 19) 1 0 3 3 "ExpressionStatement" (0, 19).
Definition commentB : Node.t :=
  mkNode "Identifier" (18, 19) 3 2 3 3 "BinaryExpression" (0, 19).
Definition commentVisits : list Visit := [ BinaryExpression commentSum commentB ].
Definition commentParen : Token.t := mkToken Punctuator ")" 14 2 8.

(** A condition on a line indented with a tab:
<<
<TAB>if (a &&
b) {}
>> *)
Definition tabbedTokens : list Token.t :=
  [ mkToken Keyword "if" 1 1 1; mkToken Punctuator "(" 4 1 4;
    mkToken Identifier "a" 5 1 5; mkToken Punctuator "&&" 7 1 7;
    mkToken Identifier "b" 10 2 0; mkToken Punctuator ")" 11 2 1;
    mkToken Punctuator "{" 13 2 3; mkToken Punctuator "}" 14 2 4 ].
Definition tabbed : SourceCode :=
  sourceOf (joinLines [TAB :: lit "if (a &&"; lit "b) {}"]) tabbedTokens.
Definition tabbedAnd : Node.t :=
  mkNode "LogicalExpression" (5, 11) 1 5 2 1 "IfStatement" (1, 15).
Definition tabbedB : Node.t :=
  mkNode "Identifier" (10, 11) 2 0 2 1 "LogicalExpression" (5, 11).
Definition tabbedVisits : list Visit := [ LogicalExpression tabbedAnd tabbedB ].

(** An operand in parentheses, the parenthesis on a line of its own:
<<
x = a +
(
b)
>> *)
Definition groupTokens : list Token.t :=
  [ mkToken Identifier "x" 0 1 0; mkToken Punctuator "=" 2 1 2;
    mkToken Identifier "a" 4 1 4; mkToken Punctuator "+" 6 1 6;
    mkToken Punctuator "(" 10 2 2; mkToken Identifier "b" 12 3 0;
    mkToken Punctuator ")" 13 3 1 ].
Definition group : SourceCode :=
  sourceOf (joinLines [lit "x = a +"; lit "  ("; lit "b)"]) groupTokens.
Definition groupSum : Node.t :=
  mkNode "BinaryExpression" (4, 14) 1 4 3 2 "AssignmentExpression" (0, 14).
Definition groupB : Node.t :=
  mkNode "Identifier" (12, 13) 3 0 3 1 "BinaryExpression" (4, 14).
Definition groupVisits : list Visit := [ BinaryExpression groupSum groupB ].

(** A union in parentheses inside an intersection:
<<
type A = B &
(C |
D)
>> *)
Definition nestedTokens : list Token.t :=
  [ mkToken Identifier "type" 0 1 0; mkToken Identifier "A" 5 1 5;
    mkToken Punctuator "=" 7 1 7; mkToken Identifier "B" 9 1 9;
    mkToken Punctuator "&" 11 1 11; mkToken Punctuator "(" 13 2 0;
    mkToken Identifier "C" 14 2 1; mkToken Punctuator "|" 16 2 3;
    mkToken Identifier "D" 18 3 0; mkToken Punctuator ")" 19 3 1 ].
Definition nested : SourceCode :=
  sourceOf (joinLines [lit "type A = B &"; lit "(C |"; lit "D)"]) nestedTokens.
Definition nestedUnion : Node.t :=
  mkNode "TSUnionType" (14, 19) 2 1 3 1 "TSIntersectionType" (9, 20).
Definition nestedC : Node.t :=
  mkNode "TSTypeReference" (14, 15) 2 1 2 2 "TSUnionType" (14, 19).
Definition nestedD : Node.t :=
  mkNode "TSTypeReference" (18, 19) 3 0 3 1 "TSUnionType" (14, 19).
Definition nestedVisits : list Visit := [ TSUnionType nestedUnion [nestedC; nestedD] ].

(** Two sums, the second operator on the line of its operands:
<<
a +
b + c
>> *)
Definition sumsTokens : list Token.t :=
  [ mkToken Identifier "a" 0 1 0; mkToken Punctuator "+" 2 1 2;
    mkToken Identifier "b" 4 2 0; mkToken Punctuator "+" 6 2 2;
    mkToken Identifier "c" 8 2 4 ].
Definition sums : SourceCode :=
  sourceOf (joinLines [lit "a +"; lit "b + c"]) sumsTokens.
Definition sumsOuter : Node.t :=
  mkNode "BinaryExpression" (0, 9) 1 0 2 5 "ExpressionStatement" (0, 9).
Definition sumsInner : Node.t :=
  mkNode "BinaryExpression" (0, 5) 1 0 2 1 "BinaryExpression" (0, 9).
Definition sumsB : Node.t :=
  mkNode "Identifier" (4, 5) 2 0 2 1 "BinaryExpression" (0, 5).
Definition sumsC : Node.t :=
  mkNode "Identifier" (8, 9) 2 4 2 5 "BinaryExpression" (0, 9).
Definition sumsVisits : list Visit :=
  [ BinaryExpression sumsOuter sumsC; BinaryExpression sumsInner sumsB ].

(** A call that ends on a line beginning with a keyword:
<<
foo(1,
void 0)
+ y
>> *)
Definition voidedTokens : list Token.t :=
  [ mkToken Identifier "foo" 0 1 0; mkToken Punctuator "(" 3 1 3;
    mkToken Numeric "1" 4 1 4; mkToken Punctuator "," 5 1 5;
    mkToken Keyword "void" 7 2 0; mkToken Numeric "0" 12 2 5;
    mkToken Punctuator ")" 13 2 6; mkToken Punctuator "+" 15 3 0;
    mkToken Identifier "y" 17 3 2 ].
Definition voided : SourceCode :=
  sourceOf (joinLines [lit "foo(1,"; lit "void 0)"; lit "+ y"]) voidedTokens.
Definition voidedSum : Node.t :=
  mkNode "BinaryExpression" (0, 18) 1 0 3 3 "ExpressionStatement" (0, 18).
Definition voidedY : Node.t :=
  mkNode "Identifier" (17, 18) 3 2 3 3 "BinaryExpression" (0, 18).
Definition voidedVisits : list Visit := [ BinaryExpression voidedSum voidedY ].

(** A sum on one line:
<<
  a + b
>> *)
Definition oneLineTokens : list Token.t :=
  [ mkToken Identifier "a" 2 1 2; mkToken Punctuator "+" 4 1 4;
    mkToken Identifier "b" 6 1 6 ].
Definition oneLine : SourceCode :=
  sourceOf (joinLines [lit "  a + b"]) oneLineTokens.
Definition oneLineSum : Node.t :=
  mkNode "BinaryExpression" (2, 7) 1 2 1 7 "ExpressionStatement" (2, 7).
Definition oneLineB : Node.t :=
  mkNode "Identifier" (6, 7) 1 6 1 7 "BinaryExpression" (2, 7).
Definition oneLineVisits : list Visit := [ BinaryExpression oneLineSum oneLineB ].
End Samples.

(** ** The statements of the specification

    The definitions below follow the words of the specification; the
    theorems compare them with the rule. *)
Section Statements.
Context (sourceCode : SourceCode) (options0 : Option0).

(** *** The indent unit *)
Definition unitChar : N :=
  match options0 with OptTab => TAB | _ => SPACE end.

Definition unitWidth : nat :=
  match options0 with OptTab => 1 | OptNumber n => n | OptUndefined => 2 end.

Definition indentUnit : jsstring := replicate unitWidth unitChar.

(** A string with [w] characters removed at its end. *)
Definition removeTrailing (w : nat) (s : jsstring) : jsstring :=
  take (length s - w) s.

(** The target indentation in the words of the specification: one unit
    more, the trailing unit removed, or unchanged. *)
Definition targetAsStated (indent : jsstring) (addition subtraction : bool) : jsstring :=
  if addition && negb subtraction then indent ++ indentUnit
  else if subtraction && negb addition then removeTrailing unitWidth indent
  else indent.

(** A string of repetitions of the configured unit character. *)
Definition onlyUnitChar (s : jsstring) : Prop :=
  s = replicate (length s) unitChar.

(** The source lines are indented with the unit character only. *)
Definition linesOnlyUnitChar : Prop :=
  ∀ l, l ∈ lines sourceCode → onlyUnitChar (matchLeadingWhiteSpace l).

Definition cacheOnlyUnitChar (indentCache : gmap nat jsstring) : Prop :=
  ∀ ln s, indentCache !! ln = Some s → onlyUnitChar s.

Definition reportsOnlyUnitChar (reports : list Report) : Prop :=
  ∀ r, r ∈ reports → onlyUnitChar (r_fixText r).

(** *** Lines *)
Definition startLine (tok : Token.t) : nat := line (start (Token.loc tok)).

(** The number of entries of the stream with value [v] that start on
    line [ln]. *)
Definition countOnLine (v : jsstring) (ln : nat) : nat :=
  length (List.filter
            (λ tok, (startLine tok =? ln) && bool_decide (Token.value tok = v))
            (tokensAndComments sourceCode)).

Definition overClosed (ln : nat) : Prop :=
  countOnLine (lit "(") ln < countOnLine (lit ")") ln.

Definition isCloser (v : jsstring) : Prop :=
  v ∈ [lit ")"; lit "}"; lit "]"].

(** Every entry of the stream that starts on the line is a closing
    bracket. *)
Definition exclusivelyClosers (ln : nat) : Prop :=
  ∀ tok, tok ∈ tokensAndComments sourceCode →
         startLine tok = ln → isCloser (Token.value tok).

(** The same with the comments left out. *)
Definition exclusivelyClosersBesidesComments (ln : nat) : Prop :=
  ∀ tok, tok ∈ tokensAndComments sourceCode → Token.isComment tok = false →
         startLine tok = ln → isCloser (Token.value tok).

Definition lastTokenIs (vs : list jsstring) (ln : nat) : Prop :=
  ∃ tok, lastTokenOfLine sourceCode ln = Some tok ∧ Token.value tok ∈ vs.

(** *** The conditions of one unit of subtraction *)
Definition subtractionAsStated (tokenLeft : Token.t) : Prop :=
  lastTokenIs [lit ")"] (startLine tokenLeft)
  ∧ overClosed (startLine tokenLeft)
  ∧ ¬ exclusivelyClosersBesidesComments (startLine tokenLeft).

Definition subtractionConditions (tokenLeft : Token.t) : Prop :=
  lastTokenIs [lit ")"] (startLine tokenLeft)
  ∧ overClosed (startLine tokenLeft)
  ∧ ¬ exclusivelyClosers (startLine tokenLeft).

(** *** The five conditions of one unit of addition *)
Definition reservedWordFirst (tokenLeft : Token.t) : Prop :=
  ∃ first, firstTokenOfLine sourceCode (startLine tokenLeft) = Some first
           ∧ Token.type first = Keyword
           ∧ Token.value first ∉ [lit "typeof"; lit "instanceof"; lit "this"].

Definition typeAliasFirst (node : Node.t) (tokenLeft : Token.t) : Prop :=
  ∃ first, firstTokenOfLine sourceCode (startLine tokenLeft) = Some first
           ∧ Token.type first = Identifier
           ∧ Token.value first = lit "type"
           ∧ Node.ptype <$> Node.parent node = Some (lit "TSTypeAliasDeclaration").

Definition openerLast (tokenLeft : Token.t) : Prop :=
  lastTokenIs [lit ":"; lit "["; lit "("; lit "<"; lit "="] (startLine tokenLeft).

Definition openerBeforeNode (tokenLeft : Token.t) (tokenBeforeAll : option Token.t) : Prop :=
  ∃ before first,
    tokenBeforeAll = Some before
    ∧ Token.value before ∈ [lit "["; lit "("; lit "=>"; lit ":"]
    ∧ firstTokenOfLine sourceCode (startLine tokenLeft) = Some first
    ∧ startLine before = startLine first.

Definition operatorChain (indentCache : gmap nat jsstring) (node : Node.t)
    (tokenLeft : Token.t) : Prop :=
  lastTokenIs [lit "||"; lit "&&"] (startLine tokenLeft)
  ∧ line (start (Node.loc node)) = startLine tokenLeft
  ∧ ∃ indent, getIndentOfLine sourceCode indentCache (startLine tokenLeft) = Normal indent
              ∧ column (start (Node.loc node)) ≠ length indent.

Definition additionConditions (indentCache : gmap nat jsstring) (node : Node.t)
    (tokenLeft : Token.t) (tokenBeforeAll : option Token.t) : Prop :=
  reservedWordFirst tokenLeft
  ∨ typeAliasFirst node tokenLeft
  ∨ openerLast tokenLeft
  ∨ openerBeforeNode tokenLeft tokenBeforeAll
  ∨ operatorChain indentCache node tokenLeft.

(** *** The message *)
Definition unitName : jsstring :=
  match options0 with OptTab => lit "tab" | _ => lit "space" end.

Definition pluralOf (name : jsstring) (count : nat) : jsstring :=
  if decide (count = 1) then name else name ++ lit "s".

(** *** The positions of the backward walk

    [walkAt right tokenRight tokenOperator]: the walk from the first
    token of [right] stands at [tokenRight], with [tokenOperator] the
    token before it, after skipping opening parentheses without leaving
    the owning node. *)
Inductive walkAt (right : Node.t) : Token.t → Token.t → Prop :=
  | walkAt_start tokenRight tokenOperator :
      Host.getFirstToken sourceCode right = Some tokenRight →
      Host.getTokenBefore sourceCode tokenRight = Some tokenOperator →
      walkAt right tokenRight tokenOperator
  | walkAt_skip tokenRight tokenOperator before owner :
      walkAt right tokenRight tokenOperator →
      Token.value tokenOperator = lit "(" →
      Host.getTokenBefore sourceCode tokenOperator = Some before →
      Node.parent right = Some owner →
      (Node.prange owner).1 < (Token.range before).1 →
      walkAt right tokenOperator before.

(** The number of tokens that start before [tok]: the measure of the
    loop. *)
Definition startsBefore (tok : Token.t) : nat :=
  length (List.filter (λ x, (Token.range x).1 <? (Token.range tok).1)
            (Host.tokens sourceCode)).

Definition isMultilineNode (node : Node.t) : Prop :=
  line (start (Node.loc node)) ≠ line (end_ (Node.loc node)).

(** *** Readable lines, pairs and white space *)

(** A line whose indentation [getIndentOfLine] can give: it is in the
    cache, or it is a line of the text. *)
Definition lineReadable (indentCache : gmap nat jsstring) (ln : nat) : Prop :=
  is_Some (indentCache !! ln) ∨ (1 ≤ ln ∧ ln ≤ length (lines sourceCode)).

Definition whiteSpaceOnly (s : jsstring) : Prop :=
  Forall (λ c, isWhiteSpace c = true) s.

(** A string that does not begin with white space. *)
Definition startsWithoutWhiteSpace (s : jsstring) : Prop :=
  ∀ c rest, s = c :: rest → isWhiteSpace c = false.

Definition cacheWhiteSpaceOnly (indentCache : gmap nat jsstring) : Prop :=
  ∀ ln s, indentCache !! ln = Some s → whiteSpaceOnly s.

(** The line a violation is reported on. *)
Definition reportLine (r : Report) : nat := line (start (r_loc r)).

(** The node a visitor entry is called with, and the number of pairs it
    hands to [handler]. *)
Definition visitedNode (v : Visit) : Node.t :=
  match v with
  | BinaryExpression node _ | LogicalExpression node _
  | TSUnionType node _ | TSIntersectionType node _ => node
  end.

Definition pairCount (v : Visit) : nat :=
  match v with
  | BinaryExpression _ _ | LogicalExpression _ _ => 1
  | TSUnionType _ types | TSIntersectionType _ types =>
      if 1 <? length types then length types else 0
  end.

(** The shape of every violation: one message kind, a location on one
    line from column 0, a fix over the offsets of that location, and the
    message written from the text of the fix. *)
Definition reportShaped (r : Report) : Prop :=
  r_messageId r = wrongIndentation
  ∧ column (start (r_loc r)) = 0
  ∧ line (end_ (r_loc r)) = line (start (r_loc r))
  ∧ r_fixRange r = (Host.getIndexFromLoc sourceCode (start (r_loc r)),
                    Host.getIndexFromLoc sourceCode (end_ (r_loc r)))
  ∧ (r_fixRange r).1 ≤ (r_fixRange r).2
  ∧ r_expected r = expectedOf options0 (r_fixText r).

(** *** Idempotence

    [parsed] and [visits'] stand for the host's parse of the text that the
    fixes of one pass produce: one pass settles the file when the analysis
    of that parse reports nothing. *)
Definition settlesInOnePass (visits : list Visit)
    (parsed : SourceCode) (visits' : list Visit) : Prop :=
  ∀ reports,
    analyse sourceCode options0 visits = Normal reports →
    text parsed = Host.applyFixes (text sourceCode) (fixOf <$> reports) →
    analyse parsed options0 visits' = Normal [].
End Statements.

(** * Properties *)

(** ** Strings and completions *)

Lemma includes_spec xs x : includes xs x = true ↔ x ∈ xs.
Proof.
  unfold includes. rewrite existsb_exists. split.
  - intros (y & Hy & Heq). apply bool_decide_eq_true in Heq. subst.
    by apply list_elem_of_In.
  - intros Hx. exists x. split; [by apply list_elem_of_In | by apply bool_decide_eq_true].
Qed.

Lemma includes_false xs x : includes xs x = false ↔ x ∉ xs.
Proof.
  rewrite <- includes_spec. destruct (includes xs x); naive_solver.
Qed.

Lemma bind_Normal {A B} (m : completion A) (k : A → completion B) b :
  bind m k = Normal b ↔ ∃ a, m = Normal a ∧ k a = Normal b.
Proof.
  destruct m as [a| |]; simpl; split.
  - intros Hk. by exists a.
  - intros (a' & [= <-] & Hk). exact Hk.
  - discriminate.
  - intros (a' & Hm & _). discriminate.
  - discriminate.
  - intros (a' & Hm & _). discriminate.
Qed.

Lemma bind_OutOfFuel {A B} (m : completion A) (k : A → completion B) :
  bind m k = OutOfFuel ↔ m = OutOfFuel ∨ ∃ a, m = Normal a ∧ k a = OutOfFuel.
Proof.
  destruct m as [a| |]; simpl; split.
  - intros Hk. right. by exists a.
  - intros [Hm | (a' & [= <-] & Hk)]; [discriminate | exact Hk].
  - discriminate.
  - intros [Hm | (a' & Hm & _)]; discriminate.
  - by left.
  - done.
Qed.

Lemma nonNull_not_OutOfFuel {A} (o : option A) : nonNull o ≠ OutOfFuel.
Proof. by destruct o. Qed.

(** ** The target indentation *)

Lemma indentStr_unit options0 : indentStr options0 = indentUnit options0.
Proof. by destruct options0. Qed.

Lemma subtractionIndent_drop options0 indent :
  subtractionIndent options0 indent = drop (unitWidth options0) indent.
Proof. by destruct options0. Qed.

Lemma drop_replicate_trailing {A} (w n : nat) (c : A) :
  drop w (replicate n c) = take (n - w) (replicate n c).
Proof. by rewrite drop_replicate, take_replicate, Nat.min_l by lia. Qed.

(** C2, as the rule computes it. The target is the left indentation with
    one indent unit appended when only the addition holds, with its first
    unit-width characters removed ([indent.slice(width)]) when only the
    subtraction holds, and unchanged otherwise. The unit is [N] spaces, or
    one tab in tab mode, where the subtraction removes the first
    character. On an indentation that repeats one character, removing the
    leading unit is removing the trailing one. *)
Theorem getTargetIndent_leading_unit options0 indent addition subtraction :
  getTargetIndent options0 indent addition subtraction
    = (if addition && negb subtraction then indent ++ indentUnit options0
       else if subtraction && negb addition then drop (unitWidth options0) indent
       else indent)
  ∧ getTargetIndent OptTab indent true false = indent ++ [TAB]
  ∧ getTargetIndent OptTab indent false true = drop 1 indent
  ∧ (∀ n, getTargetIndent (OptNumber n) indent true false = indent ++ replicate n SPACE)
  ∧ (∀ n c, getTargetIndent options0 (replicate n c) false true
            = removeTrailing (unitWidth options0) (replicate n c))
  ∧ length (getTargetIndent options0 indent false true)
    = length indent - unitWidth options0.
Proof.
  unfold getTargetIndent.
  rewrite indentStr_unit, !subtractionIndent_drop.
  repeat split.
  - by destruct addition, subtraction.
  - intros n c. cbn [andb negb]. unfold removeTrailing.
    by rewrite subtractionIndent_drop, length_replicate, drop_replicate_trailing.
  - cbn [andb negb]. by rewrite length_drop.
Qed.

(** C2, as stated, fails where the left indentation mixes characters: with
    a unit of two spaces, the indentation tab-space-space loses its first
    two characters, not its trailing unit. *)
Lemma getTargetIndent_not_trailing :
  getTargetIndent (OptNumber 2) [TAB; SPACE; SPACE] false true = [SPACE]
  ∧ targetAsStated (OptNumber 2) [TAB; SPACE; SPACE] false true = [TAB]
  ∧ getTargetIndent (OptNumber 2) [TAB; SPACE; SPACE] false true
    ≠ targetAsStated (OptNumber 2) [TAB; SPACE; SPACE] false true.
Proof. by vm_compute. Qed.

(** ** The backward walk terminates *)

Lemma filter_length_lt {A} (p q : A → bool) (l : list A) (x : A) :
  (∀ y, p y = true → q y = true) →
  In x l → q x = true → p x = false →
  length (List.filter p l) < length (List.filter q l).
Proof.
  intros Hpq. induction l as [|y l IH]; simpl; [done|].
  assert (Hle : ∀ l', length (List.filter p l') ≤ length (List.filter q l')).
  { induction l' as [|z l' IH']; simpl; [done|].
    destruct (p z) eqn:Hp; [rewrite (Hpq _ Hp); simpl; lia|].
    destruct (q z); simpl; lia. }
  intros [-> | Hin] Hq Hp.
  - rewrite Hq, Hp. simpl. specialize (Hle l). lia.
  - specialize (IH Hin Hq Hp).
    destruct (p y) eqn:Hpy; [rewrite (Hpq _ Hpy); simpl; lia|].
    destruct (q y); simpl; lia.
Qed.

Lemma filter_length_le {A} (p : A → bool) (l : list A) :
  length (List.filter p l) ≤ length l.
Proof. induction l as [|y l IH]; simpl; [done|]. destruct (p y); simpl; lia. Qed.

Section Walk.
Context (sourceCode : SourceCode).

Lemma tokenBeforeOffset_Some pos tok :
  Host.tokenBeforeOffset sourceCode pos = Some tok →
  In tok (Host.tokens sourceCode) ∧ (Token.range tok).1 < pos.
Proof.
  unfold Host.tokenBeforeOffset. intros Hfind.
  apply find_some in Hfind as [Hin Hlt].
  split; [by apply in_rev | by apply Nat.ltb_lt].
Qed.

Lemma tokens_in_stream tok :
  In tok (Host.tokens sourceCode) → In tok (tokensAndComments sourceCode).
Proof. unfold Host.tokens. rewrite filter_In. tauto. Qed.

(** The line of a left-context token has a first token. *)
Lemma firstTokenOfLine_left tokenOperator tokenLeft :
  Host.getTokenBefore sourceCode tokenOperator = Some tokenLeft →
  ∃ first, firstTokenOfLine sourceCode (startLine tokenLeft) = Some first
           ∧ startLine first = startLine tokenLeft.
Proof.
  intros [Hin _]%tokenBeforeOffset_Some. apply tokens_in_stream in Hin.
  unfold firstTokenOfLine.
  destruct (List.find _ (tokensAndComments sourceCode)) as [first|] eqn:Hfind.
  - exists first. split; [done|]. apply find_some in Hfind as [_ Hline].
    by apply Nat.eqb_eq in Hline.
  - apply find_none with (x := tokenLeft) in Hfind; [|done].
    unfold startLine in Hfind. by rewrite Nat.eqb_refl in Hfind.
Qed.

Lemma getTokenBefore_startsBefore tok before :
  Host.getTokenBefore sourceCode tok = Some before →
  startsBefore sourceCode before < startsBefore sourceCode tok.
Proof.
  intros Hbefore. apply tokenBeforeOffset_Some in Hbefore as [Hin Hlt].
  unfold startsBefore. apply filter_length_lt with (x := before); [|done|..].
  - intros y Hy. apply Nat.ltb_lt in Hy. apply Nat.ltb_lt. lia.
  - by apply Nat.ltb_lt.
  - apply Nat.ltb_ge. lia.
Qed.

Lemma startsBefore_le tok : startsBefore sourceCode tok ≤ walkFuel sourceCode.
Proof. apply filter_length_le. Qed.

Lemma walk_fuel right fuel1 : ∀ fuel2 tokenRight tokenOperator,
  startsBefore sourceCode tokenOperator < fuel1 →
  startsBefore sourceCode tokenOperator < fuel2 →
  walk sourceCode fuel1 right tokenRight tokenOperator
  = walk sourceCode fuel2 right tokenRight tokenOperator.
Proof.
  induction fuel1 as [|fuel1 IH]; intros fuel2 tokenRight tokenOperator H1 H2; [lia|].
  destruct fuel2 as [|fuel2]; [lia|]. simpl.
  destruct (bool_decide _); [|done].
  destruct (Host.getTokenBefore sourceCode tokenOperator) as [before|] eqn:Hbefore;
    simpl; [|done].
  destruct (Node.parent right) as [owner|]; simpl; [|done].
  destruct (_ <=? _); [done|].
  apply getTokenBefore_startsBefore in Hbefore. apply IH; lia.
Qed.

Lemma walk_not_OutOfFuel right fuel : ∀ tokenRight tokenOperator,
  startsBefore sourceCode tokenOperator < fuel →
  walk sourceCode fuel right tokenRight tokenOperator ≠ OutOfFuel.
Proof.
  induction fuel as [|fuel IH]; intros tokenRight tokenOperator Hlt; [lia|].
  simpl. destruct (bool_decide _); [|done].
  destruct (Host.getTokenBefore sourceCode tokenOperator) as [before|] eqn:Hbefore;
    simpl; [|done].
  destruct (Node.parent right) as [owner|]; simpl; [|done].
  destruct (_ <=? _); [done|].
  apply getTokenBefore_startsBefore in Hbefore. apply IH; lia.
Qed.

(** The loop of [resolve] never runs out of the fuel it is given. *)
Lemma resolve_terminates right : resolve sourceCode right ≠ OutOfFuel.
Proof.
  unfold resolve.
  destruct (Host.getFirstToken sourceCode right) as [tokenRight|]; simpl; [|done].
  destruct (Host.getTokenBefore sourceCode tokenRight) as [tokenOperator|] eqn:Hop;
    simpl; [|done].
  apply walk_not_OutOfFuel.
  apply getTokenBefore_startsBefore in Hop.
  pose proof (startsBefore_le tokenRight). lia.
Qed.

Lemma walk_step right fuel tokenRight tokenOperator before owner :
  Token.value tokenOperator = lit "(" →
  Host.getTokenBefore sourceCode tokenOperator = Some before →
  Node.parent right = Some owner →
  (Node.prange owner).1 < (Token.range before).1 →
  walk sourceCode (S fuel) right tokenRight tokenOperator
  = walk sourceCode fuel right tokenOperator before.
Proof.
  intros Hparen Hbefore Howner Hin. simpl.
  rewrite bool_decide_eq_true_2 by done.
  rewrite Hbefore, Howner. simpl.
  by rewrite (proj2 (Nat.leb_gt _ _)) by lia.
Qed.

(** From a position of the walk, [resolve] is the rest of the loop. *)
Lemma resolve_walkAt right tokenRight tokenOperator :
  walkAt sourceCode right tokenRight tokenOperator →
  startsBefore sourceCode tokenOperator < walkFuel sourceCode
  ∧ resolve sourceCode right
    = walk sourceCode (walkFuel sourceCode) right tokenRight tokenOperator.
Proof.
  induction 1 as [tokenRight tokenOperator Hfirst Hop
                 | tokenRight tokenOperator before owner Hat [IHlt IH] Hparen Hbefore Howner Hin].
  - split.
    + apply getTokenBefore_startsBefore in Hop.
      pose proof (startsBefore_le tokenRight). lia.
    + unfold resolve. rewrite Hfirst. simpl. by rewrite Hop.
  - pose proof (getTokenBefore_startsBefore _ _ Hbefore) as Hlt.
    split; [lia|]. rewrite IH.
    rewrite (walk_fuel right _ (S (walkFuel sourceCode))) by lia.
    by apply walk_step with (owner := owner).
Qed.

(** What the loop returns: an operator that is not an opening
    parenthesis, with the position it was found at. *)
Lemma walk_Found right fuel : ∀ tokenRight tokenOperator tokenRight' tokenOperator',
  walkAt sourceCode right tokenRight tokenOperator →
  walk sourceCode fuel right tokenRight tokenOperator
    = Normal (Found tokenRight' tokenOperator') →
  walkAt sourceCode right tokenRight' tokenOperator'
  ∧ Token.value tokenOperator' ≠ lit "(".
Proof.
  induction fuel as [|fuel IH]; intros tokenRight tokenOperator tokenRight' tokenOperator' Hat;
    simpl.
  - destruct (bool_decide _) eqn:Hparen; [done|].
    intros [= <- <-]. split; [done | by apply bool_decide_eq_false in Hparen].
  - destruct (bool_decide _) eqn:Hparen.
    + apply bool_decide_eq_true in Hparen.
      destruct (Host.getTokenBefore sourceCode tokenOperator) as [before|] eqn:Hbefore;
        simpl; [|done].
      destruct (Node.parent right) as [owner|] eqn:Howner; simpl; [|done].
      destruct (_ <=? _) eqn:Hle; [done|].
      apply Nat.leb_gt in Hle. apply IH.
      by apply walkAt_skip with (tokenRight := tokenRight) (owner := owner).
    + intros [= <- <-]. split; [done | by apply bool_decide_eq_false in Hparen].
Qed.

Lemma resolve_Found right tokenRight tokenOperator :
  resolve sourceCode right = Normal (Found tokenRight tokenOperator) →
  walkAt sourceCode right tokenRight tokenOperator
  ∧ Token.value tokenOperator ≠ lit "(".
Proof.
  unfold resolve.
  destruct (Host.getFirstToken sourceCode right) as [first|] eqn:Hfirst; simpl; [|done].
  destruct (Host.getTokenBefore sourceCode first) as [op|] eqn:Hop; simpl; [|done].
  apply walk_Found. by apply walkAt_start.
Qed.
End Walk.

(** ** The handler *)

Section Handler.
Context (sourceCode : SourceCode) (options0 : Option0).

Implicit Types (indentCache : gmap nat jsstring) (node right : Node.t).

Lemma getIndentOfLine_not_OutOfFuel indentCache ln :
  getIndentOfLine sourceCode indentCache ln ≠ OutOfFuel.
Proof.
  unfold getIndentOfLine. destruct (indentCache !! ln); [done|].
  destruct ln as [|k]; [done|]. by destruct (lines sourceCode !! k).
Qed.

Lemma needAdditionIndent_not_OutOfFuel indentCache node tokenLeft before first last :
  needAdditionIndent sourceCode indentCache node tokenLeft before first last ≠ OutOfFuel.
Proof.
  unfold needAdditionIndent.
  repeat (match goal with |- context [if ?b then _ else _] => destruct b end; try done).
  intros [Hind | (ind & _ & Hk)]%bind_OutOfFuel; [|done].
  by apply getIndentOfLine_not_OutOfFuel in Hind.
Qed.

Lemma check_not_OutOfFuel indentCache node tokenRight tokenLeft before :
  check sourceCode options0 indentCache node tokenRight tokenLeft before ≠ OutOfFuel.
Proof.
  unfold check. destruct (negb (negb _)); [done|].
  intros [Hadd | (add & _ & Hk)]%bind_OutOfFuel;
    [by apply needAdditionIndent_not_OutOfFuel in Hadd|].
  apply bind_OutOfFuel in Hk as [Hind | (indentLeft & _ & Hk)];
    [by apply getIndentOfLine_not_OutOfFuel in Hind|].
  apply bind_OutOfFuel in Hk as [Hind | (indentRight & _ & Hk)];
    [by apply getIndentOfLine_not_OutOfFuel in Hind|].
  by destruct (bool_decide _).
Qed.

(** [handler] always completes: it returns or it throws. *)
Lemma handler_terminates indentCache node right :
  handler sourceCode options0 indentCache node right ≠ OutOfFuel.
Proof.
  unfold handler. destruct (_ =? _); [done|].
  intros [Hres | (w & _ & Hk)]%bind_OutOfFuel;
    [by apply resolve_terminates in Hres|].
  destruct w as [|tokenRight tokenOperator]; [done|].
  unfold evaluate in Hk.
  apply bind_OutOfFuel in Hk as [Hnull | (tokenLeft & _ & Hk)];
    [by apply nonNull_not_OutOfFuel in Hnull|].
  by apply check_not_OutOfFuel in Hk.
Qed.

(** [handler] on a node of several lines is the walk followed by
    [evaluate]. *)
Lemma handler_multiline indentCache node right :
  isMultilineNode node →
  handler sourceCode options0 indentCache node right
  = (let! w := resolve sourceCode right in
     match w with
     | Aborted => Normal (indentCache, [])
     | Found tokenRight tokenOperator =>
         evaluate sourceCode options0 indentCache node tokenRight tokenOperator
     end).
Proof.
  unfold isMultilineNode, handler. intros Hne.
  by rewrite (proj2 (Nat.eqb_neq _ _)) by done.
Qed.

(** What a normal return of [check] tells. *)
Lemma check_Normal indentCache node tokenRight tokenLeft before indentCache' reports :
  check sourceCode options0 indentCache node tokenRight tokenLeft before
    = Normal (indentCache', reports) →
  (startLine tokenRight = startLine tokenLeft ∧ indentCache' = indentCache ∧ reports = [])
  ∨ (startLine tokenRight ≠ startLine tokenLeft
     ∧ ∃ addition indentLeft indentRight,
         needAdditionIndent sourceCode indentCache node tokenLeft before
           (firstTokenOfLine sourceCode (startLine tokenLeft))
           (lastTokenOfLine sourceCode (startLine tokenLeft)) = Normal addition
         ∧ getIndentOfLine sourceCode indentCache (startLine tokenLeft) = Normal indentLeft
         ∧ getIndentOfLine sourceCode indentCache (startLine tokenRight) = Normal indentRight
         ∧ let indentTarget :=
             getTargetIndent options0 indentLeft addition
               (needSubtractionIndent sourceCode tokenLeft
                  (lastTokenOfLine sourceCode (startLine tokenLeft))) in
           (indentTarget = indentRight ∧ indentCache' = indentCache ∧ reports = [])
           ∨ (indentTarget ≠ indentRight
              ∧ indentCache' = <[startLine tokenRight := indentTarget]> indentCache
              ∧ reports = [reportOf sourceCode options0 (startLine tokenRight)
                             indentRight indentTarget])).
Proof.
  unfold check, startLine.
  destruct (line (start (Token.loc tokenRight)) =? line (start (Token.loc tokenLeft)))
    eqn:Hline; simpl.
  { apply Nat.eqb_eq in Hline. intros [= <- <-]. by left. }
  apply Nat.eqb_neq in Hline.
  intros (addition & Hadd & Hk)%bind_Normal.
  apply bind_Normal in Hk as (indentLeft & Hleft & Hk).
  apply bind_Normal in Hk as (indentRight & Hright & Hk).
  right. split; [done|]. exists addition, indentLeft, indentRight.
  repeat split; [done..|]. simpl.
  destruct (bool_decide _) eqn:Hne.
  - apply bool_decide_eq_true in Hne. injection Hk as <- <-. by right.
  - apply bool_decide_eq_false in Hne. injection Hk as <- <-. left.
    split; [|done]. by destruct (decide (getTargetIndent options0 indentLeft addition
      (needSubtractionIndent sourceCode tokenLeft
         (lastTokenOfLine sourceCode (line (start (Token.loc tokenLeft))))) = indentRight)).
Qed.

(** What a normal return of [handler] tells. *)
Lemma handler_Normal indentCache node right indentCache' reports :
  handler sourceCode options0 indentCache node right = Normal (indentCache', reports) →
  (indentCache' = indentCache ∧ reports = [])
  ∨ (isMultilineNode node
     ∧ ∃ tokenRight tokenOperator tokenLeft,
         resolve sourceCode right = Normal (Found tokenRight tokenOperator)
         ∧ Host.getTokenBefore sourceCode tokenOperator = Some tokenLeft
         ∧ check sourceCode options0 indentCache node tokenRight tokenLeft
             (Host.getTokenBeforeNode sourceCode node) = Normal (indentCache', reports)).
Proof.
  unfold handler.
  destruct (_ =? _) eqn:Hline; [intros [= <- <-]; by left|].
  apply Nat.eqb_neq in Hline.
  intros (w & Hres & Hk)%bind_Normal.
  destruct w as [|tokenRight tokenOperator]; [injection Hk as <- <-; by left|].
  unfold evaluate in Hk. apply bind_Normal in Hk as (tokenLeft & Hleft & Hk).
  right. split; [done|]. exists tokenRight, tokenOperator, tokenLeft.
  repeat split; [done| |done].
  by destruct (Host.getTokenBefore sourceCode tokenOperator); simplify_eq/=.
Qed.

(** C3. While the walk stands at an opening parenthesis: if the token
    before it starts at or before the start of the node that owns the
    pair, the evaluation of the pair is abandoned, with no violation and
    the cache unchanged. At the first token that is not an opening
    parenthesis the walk ends: that token is the operator, and the token
    before it is the left-context token, for which the rest of the
    handler runs. *)
Theorem walk_aborts_or_finds_operator indentCache node right tokenRight tokenOperator :
  isMultilineNode node →
  walkAt sourceCode right tokenRight tokenOperator →
  (Token.value tokenOperator = lit "(" →
     ∀ before owner,
       Host.getTokenBefore sourceCode tokenOperator = Some before →
       Node.parent right = Some owner →
       (Token.range before).1 ≤ (Node.prange owner).1 →
       handler sourceCode options0 indentCache node right = Normal (indentCache, []))
  ∧ (Token.value tokenOperator ≠ lit "(" →
       resolve sourceCode right = Normal (Found tokenRight tokenOperator)
       ∧ handler sourceCode options0 indentCache node right
         = (let! tokenLeft := nonNull (Host.getTokenBefore sourceCode tokenOperator) in
            check sourceCode options0 indentCache node tokenRight tokenLeft
              (Host.getTokenBeforeNode sourceCode node))).
Proof.
  intros Hmulti Hat. rewrite handler_multiline by done.
  destruct (resolve_walkAt _ _ _ _ Hat) as [Hlt ->].
  destruct (walkFuel sourceCode) as [|fuel]; [lia|]. split.
  - intros Hparen before owner Hbefore Howner Hle. simpl.
    rewrite bool_decide_eq_true_2 by done.
    rewrite Hbefore, Howner. simpl.
    by rewrite (proj2 (Nat.leb_le _ _)) by done.
  - intros Hparen. simpl. by rewrite bool_decide_eq_false_2 by done.
Qed.

(** C4. No violation is reported, and the cache is left as it is, when
    the owning node starts and ends on one line, or when the
    left-context token and the first token of the operand (after the
    walk) start on the same line. *)
Theorem no_violation_without_continuation indentCache node right :
  (¬ isMultilineNode node
   ∨ ∃ tokenRight tokenOperator tokenLeft,
       resolve sourceCode right = Normal (Found tokenRight tokenOperator)
       ∧ Host.getTokenBefore sourceCode tokenOperator = Some tokenLeft
       ∧ startLine tokenLeft = startLine tokenRight) →
  handler sourceCode options0 indentCache node right = Normal (indentCache, []).
Proof.
  intros Hskip.
  destruct (decide (line (start (Node.loc node)) = line (end_ (Node.loc node))))
    as [Hone | Hmulti].
  { unfold handler. by rewrite (proj2 (Nat.eqb_eq _ _)) by done. }
  destruct Hskip as [Hone | (tokenRight & tokenOperator & tokenLeft & Hres & Hleft & Hline)];
    [by destruct Hone|].
  rewrite handler_multiline by done. rewrite Hres. simpl.
  unfold evaluate. rewrite Hleft. simpl. unfold check, startLine in *.
  by rewrite Hline, Nat.eqb_refl.
Qed.
End Handler.

(** ** The classification *)

Section Classifier.
Context (sourceCode : SourceCode).

Implicit Types (indentCache : gmap nat jsstring) (node : Node.t) (tokenLeft : Token.t).

Lemma lastTokenIs_includes vs ln :
  ¬ [] ∈ vs →
  includes vs (from_option Token.value [] (lastTokenOfLine sourceCode ln)) = true
  ↔ lastTokenIs sourceCode vs ln.
Proof.
  intros Hempty. rewrite includes_spec. unfold lastTokenIs.
  destruct (lastTokenOfLine sourceCode ln) as [tok|]; simpl; split.
  - intros Hin. by exists tok.
  - by intros (tok' & [= <-] & Hin).
  - done.
  - by intros (tok' & ? & _).
Qed.

Lemma not_empty_elem (vs : list jsstring) : includes vs [] = false → ¬ [] ∈ vs.
Proof. intros Hf. by apply includes_false. Qed.

(** The two counters of [isGreaterThanCloseBracketOfLine]. *)
Lemma bracket_counts (p : Token.t → bool) (stream : list Token.t) : ∀ o c,
  fold_left
    (λ '(o, c) token,
       (if bool_decide (Token.value token = lit "(") then S o else o,
        if bool_decide (Token.value token = lit ")") then S c else c))
    (List.filter p stream) (o, c)
  = (o + length (List.filter (λ tok, p tok && bool_decide (Token.value tok = lit "(")) stream),
     c + length (List.filter (λ tok, p tok && bool_decide (Token.value tok = lit ")")) stream)).
Proof.
  induction stream as [|tok stream IH]; intros o c; simpl.
  - f_equal; lia.
  - destruct (p tok); simpl; [|apply IH].
    rewrite IH.
    destruct (bool_decide (Token.value tok = lit "("));
      destruct (bool_decide (Token.value tok = lit ")")); simpl; f_equal; lia.
Qed.

Lemma isGreaterThanCloseBracketOfLine_overClosed ln :
  isGreaterThanCloseBracketOfLine sourceCode ln = true ↔ overClosed sourceCode ln.
Proof.
  unfold isGreaterThanCloseBracketOfLine, overClosed, countOnLine.
  rewrite (bracket_counts (λ token, line (start (Token.loc token)) =? ln)).
  simpl. apply Nat.ltb_lt.
Qed.

Lemma hasExclusivelyCloseBracketOfLine_closers ln :
  hasExclusivelyCloseBracketOfLine sourceCode ln = true
  ↔ exclusivelyClosers sourceCode ln.
Proof.
  unfold hasExclusivelyCloseBracketOfLine, exclusivelyClosers, isCloser, startLine.
  rewrite negb_true_iff. split.
  - intros Hnone tok Hin Hline.
    apply includes_spec. destruct (includes _ _) eqn:Hinc; [done|].
    assert (existsb
              (λ token, (line (start (Token.loc token)) =? ln)
                        && negb (includes [lit ")"; lit "}"; lit "]"] (Token.value token)))
              (tokensAndComments sourceCode) = true) as Hsome; [|congruence].
    apply existsb_exists. exists tok. split; [by apply list_elem_of_In|].
    by rewrite Hinc, (proj2 (Nat.eqb_eq _ _)).
  - intros Hall. destruct (existsb _ _) eqn:Hsome; [|done].
    apply existsb_exists in Hsome as (tok & Hin & Htok).
    apply andb_true_iff in Htok as [Hline Hinc].
    apply Nat.eqb_eq in Hline. apply negb_true_iff, includes_false in Hinc.
    destruct Hinc. apply Hall; [by apply list_elem_of_In | done].
Qed.



Lemma reservedWordFirst_reflect tokenLeft :
  from_option
    (λ first, bool_decide (Token.type first = Keyword)
              && negb (includes [lit "typeof"; lit "instanceof"; lit "this"] (Token.value first)))
    false (firstTokenOfLine sourceCode (startLine tokenLeft)) = true
  ↔ reservedWordFirst sourceCode tokenLeft.
Proof.
  unfold reservedWordFirst.
  destruct (firstTokenOfLine sourceCode (startLine tokenLeft)) as [first|]; cbn [from_option].
  - split.
    + intros [Hty Hv]%andb_true_iff.
      apply bool_decide_eq_true in Hty. apply negb_true_iff, includes_false in Hv.
      by exists first.
    + intros (first' & [= <-] & Hty & Hv).
      apply andb_true_iff. split; [by apply bool_decide_eq_true|].
      by apply negb_true_iff, includes_false.
  - split; [done | by intros (first' & ? & _)].
Qed.

Lemma typeAliasFirst_reflect node tokenLeft :
  from_option
    (λ first, bool_decide (Token.type first = Identifier)
              && bool_decide (Token.value first = lit "type")
              && bool_decide (Node.ptype <$> Node.parent node
                              = Some (lit "TSTypeAliasDeclaration")))
    false (firstTokenOfLine sourceCode (startLine tokenLeft)) = true
  ↔ typeAliasFirst sourceCode node tokenLeft.
Proof.
  unfold typeAliasFirst.
  destruct (firstTokenOfLine sourceCode (startLine tokenLeft)) as [first|]; cbn [from_option].
  - rewrite !andb_true_iff, !bool_decide_eq_true. split.
    + intros [[Hty Hv] Hp]. by exists first.
    + by intros (first' & [= <-] & Hty & Hv & Hp).
  - split; [done | by intros (first' & ? & _)].
Qed.

Lemma openerBeforeNode_reflect tokenLeft (tokenBeforeAll : option Token.t) :
  includes [lit "["; lit "("; lit "=>"; lit ":"] (from_option Token.value [] tokenBeforeAll)
  && bool_decide ((λ t, line (start (Token.loc t)))
                    <$> firstTokenOfLine sourceCode (startLine tokenLeft)
                  = (λ t, line (start (Token.loc t))) <$> tokenBeforeAll) = true
  ↔ openerBeforeNode sourceCode tokenLeft tokenBeforeAll.
Proof.
  unfold openerBeforeNode, startLine.
  rewrite andb_true_iff, bool_decide_eq_true.
  destruct tokenBeforeAll as [before|]; cbn [from_option].
  - rewrite includes_spec.
    destruct (firstTokenOfLine sourceCode _) as [first|]; simpl; split.
    + intros [Hv [= Hline]]. by exists before, first.
    + intros (before' & first' & [= <-] & Hv & [= <-] & Hline). by rewrite Hline.
    + by intros [_ ?].
    + by intros (before' & first' & _ & _ & ? & _).
  - split; [intros [Hf _]; by vm_compute in Hf | by intros (before' & first' & ? & _)].
Qed.

End Classifier.

(** ** Violations, fixes and the cache *)

Section Reports.
Context (sourceCode : SourceCode) (options0 : Option0).

Implicit Types (indentCache : gmap nat jsstring) (node right : Node.t).

Lemma getIndentOfLine_insert_eq indentCache ln indent :
  getIndentOfLine sourceCode (<[ln := indent]> indentCache) ln = Normal indent.
Proof. unfold getIndentOfLine. by rewrite lookup_insert_eq. Qed.

Lemma getIndentOfLine_insert_ne indentCache ln ln' indent :
  ln ≠ ln' →
  getIndentOfLine sourceCode (<[ln := indent]> indentCache) ln'
  = getIndentOfLine sourceCode indentCache ln'.
Proof. intros Hne. unfold getIndentOfLine. by rewrite lookup_insert_ne. Qed.

Lemma needAdditionIndent_insert_ne indentCache node tokenLeft before first last ln indent :
  ln ≠ startLine tokenLeft →
  needAdditionIndent sourceCode (<[ln := indent]> indentCache) node tokenLeft before first last
  = needAdditionIndent sourceCode indentCache node tokenLeft before first last.
Proof.
  intros Hne. unfold needAdditionIndent.
  repeat (match goal with |- context [if ?b then _ else _] => destruct b eqn:? end;
          try done).
  match goal with H : _ && _ = true |- _ => apply andb_true_iff in H as [_ Hline] end.
  apply Nat.eqb_eq in Hline. rewrite getIndentOfLine_insert_ne; [done|].
  unfold startLine in Hne. congruence.
Qed.

Lemma expectedOf_plural indentTarget :
  expectedOf options0 indentTarget
  = numberToString (length indentTarget) ++ lit " "
      ++ pluralOf (unitName options0) (length indentTarget).
Proof.
  unfold expectedOf, pluralOf, unitName. do 2 f_equal.
  destruct (decide (length indentTarget = 1)) as [-> | Hne].
  - simpl. by rewrite app_nil_r.
  - by rewrite (proj2 (Nat.eqb_neq _ _)) by done.
Qed.



(** The walk moves the operand token only to an opening parenthesis
    before the operand. *)
Lemma walkAt_first right tokenRight tokenOperator :
  walkAt sourceCode right tokenRight tokenOperator →
  ∃ first, Host.getFirstToken sourceCode right = Some first
           ∧ (tokenRight = first
              ∨ (Token.value tokenRight = lit "("
                 ∧ (Token.range tokenRight).1 < (Token.range first).1)).
Proof.
  induction 1 as [tokenRight tokenOperator Hfirst Hop
                 | tokenRight tokenOperator before owner Hat (first & Hfirst & IH)
                     Hparen Hbefore Howner Hin].
  - exists tokenRight. split; [done | by left].
  - exists first. split; [done|]. right. split; [done|].
    assert (Host.getTokenBefore sourceCode tokenRight = Some tokenOperator) as Hop.
    { inversion Hat; by subst. }
    apply tokenBeforeOffset_Some in Hop as [_ Hlt].
    destruct IH as [-> | [_ Hlt']]; lia.
Qed.

(** C10. When the walk has skipped opening parentheses, the operand token
    is the outermost of them, an opening parenthesis that starts before
    the first token of the operand. The indentation compared is that of
    its line; a violation is located on its line, the fix rewrites the
    leading white space of its line, and the cache is written under its
    line number only. *)
Theorem violation_on_parenthesis_line indentCache node right
    first tokenRight tokenOperator indentCache' reports :
  Host.getFirstToken sourceCode right = Some first →
  resolve sourceCode right = Normal (Found tokenRight tokenOperator) →
  tokenRight ≠ first →
  handler sourceCode options0 indentCache node right = Normal (indentCache', reports) →
  Token.value tokenRight = lit "("
  ∧ (Token.range tokenRight).1 < (Token.range first).1
  ∧ (∀ r, r ∈ reports →
       ∃ indentRight,
         getIndentOfLine sourceCode indentCache (startLine tokenRight) = Normal indentRight
         ∧ r_fixText r ≠ indentRight
         ∧ r_loc r = {| start := {| line := startLine tokenRight; column := 0 |};
                        end_ := {| line := startLine tokenRight;
                                   column := length indentRight |} |}
         ∧ r_fixRange r
           = (Host.getIndexFromLoc sourceCode
                {| line := startLine tokenRight; column := 0 |},
              Host.getIndexFromLoc sourceCode
                {| line := startLine tokenRight; column := length indentRight |})
         ∧ indentCache' = <[startLine tokenRight := r_fixText r]> indentCache)
  ∧ (∀ ln, ln ≠ startLine tokenRight → indentCache' !! ln = indentCache !! ln).
Proof.
  intros Hfirst Hres Hmoved Hrun.
  destruct (resolve_Found _ _ _ _ Hres) as [Hat _].
  destruct (walkAt_first _ _ _ Hat) as (first' & Hfirst' & Hpos).
  rewrite Hfirst in Hfirst'. injection Hfirst' as <-.
  destruct Hpos as [-> | [Hparen Hlt]]; [done|].
  split; [done|]. split; [done|].
  destruct (handler_Normal _ _ _ _ _ _ _ Hrun)
    as [[-> ->] | (Hmulti & tokenRight' & tokenOperator' & tokenLeft & Hres' & Hleft & Hcheck)].
  { split; [by intros r ?%elem_of_nil | done]. }
  rewrite Hres in Hres'. injection Hres' as <- <-.
  destruct (check_Normal _ _ _ _ _ _ _ _ _ Hcheck)
    as [(_ & -> & ->) | (Hline & addition & indentLeft & indentRight & Hadd & HindL & HindR & Hcases)].
  { split; [by intros r ?%elem_of_nil | done]. }
  simpl in Hcases. destruct Hcases as [(_ & -> & ->) | (Hne & -> & ->)].
  { split; [by intros r ?%elem_of_nil | done]. }
  split.
  - intros r ->%list_elem_of_singleton. exists indentRight. by simpl.
  - intros ln Hln. by rewrite lookup_insert_ne.
Qed.
End Reports.

(** ** The characters of the indentations *)

Section UnitCharacter.
Context (sourceCode : SourceCode) (options0 : Option0).

Implicit Types (indentCache : gmap nat jsstring) (node right : Node.t).

Lemma onlyUnitChar_Forall s :
  onlyUnitChar options0 s ↔ Forall (λ c, c = unitChar options0) s.
Proof.
  unfold onlyUnitChar. split.
  - intros ->. apply Forall_forall. intros c Hc. by apply elem_of_replicate in Hc as [-> _].
  - induction 1 as [|c s -> _ IH]; simpl; [done | by f_equal].
Qed.

Lemma getTargetIndent_onlyUnitChar indent addition subtraction :
  onlyUnitChar options0 indent →
  onlyUnitChar options0 (getTargetIndent options0 indent addition subtraction).
Proof.
  rewrite !onlyUnitChar_Forall. intros Hindent. unfold getTargetIndent.
  rewrite indentStr_unit, subtractionIndent_drop.
  destruct (addition && negb subtraction).
  - apply Forall_app. split; [done|]. by apply Forall_replicate.
  - destruct (negb addition && subtraction); [by apply Forall_drop | done].
Qed.

Lemma getIndentOfLine_onlyUnitChar indentCache ln indent :
  linesOnlyUnitChar sourceCode options0 → cacheOnlyUnitChar options0 indentCache →
  getIndentOfLine sourceCode indentCache ln = Normal indent →
  onlyUnitChar options0 indent.
Proof.
  intros Hlines Hcache. unfold getIndentOfLine.
  destruct (indentCache !! ln) as [s|] eqn:Hs; [intros [= <-]; by eapply Hcache|].
  destruct ln as [|k]; [done|].
  destruct (lines sourceCode !! k) as [l|] eqn:Hl; simpl; [|done].
  intros [= <-]. apply Hlines. by eapply list_elem_of_lookup_2.
Qed.

Lemma handler_onlyUnitChar indentCache node right indentCache' reports :
  linesOnlyUnitChar sourceCode options0 → cacheOnlyUnitChar options0 indentCache →
  handler sourceCode options0 indentCache node right = Normal (indentCache', reports) →
  cacheOnlyUnitChar options0 indentCache' ∧ reportsOnlyUnitChar options0 reports.
Proof.
  intros Hlines Hcache Hrun.
  assert (reportsOnlyUnitChar options0 []) as Hnil by (by intros r ?%elem_of_nil).
  destruct (handler_Normal _ _ _ _ _ _ _ Hrun)
    as [[-> ->] | (Hmulti & tokenRight & tokenOperator & tokenLeft & Hres & Hleft & Hcheck)];
    [done|].
  destruct (check_Normal _ _ _ _ _ _ _ _ _ Hcheck)
    as [(_ & -> & ->) | (Hline & addition & indentLeft & indentRight & Hadd & HindL & HindR & Hcases)];
    [done|].
  simpl in Hcases. destruct Hcases as [(_ & -> & ->) | (Hne & -> & ->)]; [done|].
  assert (onlyUnitChar options0
            (getTargetIndent options0 indentLeft addition
               (needSubtractionIndent sourceCode tokenLeft
                  (lastTokenOfLine sourceCode (startLine tokenLeft))))) as Htarget.
  { apply getTargetIndent_onlyUnitChar. by eapply getIndentOfLine_onlyUnitChar. }
  split.
  - intros ln s. rewrite lookup_insert. case_decide; [by intros [= <-] | apply Hcache].
  - by intros r ->%list_elem_of_singleton.
Qed.

Lemma forEach_onlyUnitChar node types : ∀ indentCache indentCache' reports,
  linesOnlyUnitChar sourceCode options0 → cacheOnlyUnitChar options0 indentCache →
  forEach sourceCode options0 indentCache node types = Normal (indentCache', reports) →
  cacheOnlyUnitChar options0 indentCache' ∧ reportsOnlyUnitChar options0 reports.
Proof.
  induction types as [|type types IH]; intros indentCache indentCache' reports Hlines Hcache;
    simpl.
  - intros [= <- <-]. split; [done | by intros r ?%elem_of_nil].
  - intros ([cache1 reports1] & Hrun & Hk)%bind_Normal.
    apply bind_Normal in Hk as ([cache2 reports2] & Hrest & [= <- <-]).
    destruct (handler_onlyUnitChar _ _ _ _ _ Hlines Hcache Hrun) as [Hcache1 Hreports1].
    destruct (IH _ _ _ Hlines Hcache1 Hrest) as [Hcache2 Hreports2].
    split; [done|]. intros r [?|?]%elem_of_app; auto.
Qed.

Lemma visit_onlyUnitChar indentCache v indentCache' reports :
  linesOnlyUnitChar sourceCode options0 → cacheOnlyUnitChar options0 indentCache →
  visit sourceCode options0 indentCache v = Normal (indentCache', reports) →
  cacheOnlyUnitChar options0 indentCache' ∧ reportsOnlyUnitChar options0 reports.
Proof.
  intros Hlines Hcache.
  destruct v as [node rhs | node rhs | node types | node types]; simpl;
    try (by apply handler_onlyUnitChar);
    (destruct (1 <? length types);
       [by apply forEach_onlyUnitChar
       | intros [= <- <-]; split; [done | by intros r ?%elem_of_nil]]).
Qed.

Lemma traverse_onlyUnitChar visits : ∀ indentCache indentCache' reports,
  linesOnlyUnitChar sourceCode options0 → cacheOnlyUnitChar options0 indentCache →
  traverse sourceCode options0 indentCache visits = Normal (indentCache', reports) →
  cacheOnlyUnitChar options0 indentCache' ∧ reportsOnlyUnitChar options0 reports.
Proof.
  induction visits as [|v visits IH]; intros indentCache indentCache' reports Hlines Hcache;
    simpl.
  - intros [= <- <-]. split; [done | by intros r ?%elem_of_nil].
  - intros ([cache1 reports1] & Hrun & Hk)%bind_Normal.
    apply bind_Normal in Hk as ([cache2 reports2] & Hrest & [= <- <-]).
    destruct (visit_onlyUnitChar _ _ _ _ Hlines Hcache Hrun) as [Hcache1 Hreports1].
    destruct (IH _ _ _ Hlines Hcache1 Hrest) as [Hcache2 Hreports2].
    split; [done|]. intros r [?|?]%elem_of_app; auto.
Qed.

(** C9, as the rule computes it. In a file whose lines are indented with
    the configured unit character only, every target indentation of a
    pass, written into a fix or recorded in the cache, is a repetition of
    that character. *)
Theorem targets_repeat_unit_char visits indentCache reports :
  (∀ l, l ∈ lines sourceCode → onlyUnitChar options0 (matchLeadingWhiteSpace l)) →
  traverse sourceCode options0 ∅ visits = Normal (indentCache, reports) →
  (∀ r, r ∈ reports → onlyUnitChar options0 (r_fixText r))
  ∧ (∀ ln s, indentCache !! ln = Some s → onlyUnitChar options0 s).
Proof.
  intros Hlines Hrun.
  destruct (traverse_onlyUnitChar visits ∅ indentCache reports) as [Hcache Hreports];
    [done | by intros ln s ?%lookup_empty_Some | done | done].
Qed.
End UnitCharacter.

(** ** The sample files *)

Import Samples.

(** The token streams and nodes of the samples agree with their texts. *)
Lemma samples_wellFormed :
  wellFormed assertion assertionVisits = true
  ∧ wellFormed chain chainVisits = true
  ∧ wellFormed chainFixed chainFixedVisits = true
  ∧ wellFormed comment commentVisits = true
  ∧ wellFormed tabbed tabbedVisits = true
  ∧ wellFormed group groupVisits = true
  ∧ wellFormed nested nestedVisits = true
  ∧ wellFormed sums sumsVisits = true.
Proof. by vm_compute. Qed.

(** C8. A union type in a type assertion at the start of a file: one token
    only comes before the first member, no token comes before that one, and
    reading the line of the absent left-context token throws. *)
Theorem throws_without_left_context :
  Host.getFirstToken assertion assertionA = Some (mkToken Identifier "A" 1 1 1)
  ∧ Host.getTokenBefore assertion (mkToken Identifier "A" 1 1 1)
    = Some (mkToken Punctuator "<" 0 1 0)
  ∧ Host.getTokenBefore assertion (mkToken Punctuator "<" 0 1 0) = None
  ∧ handler assertion OptUndefined ∅ assertionUnion assertionA = Throws
  ∧ analyse assertion OptUndefined assertionVisits = Throws.
Proof. by vm_compute. Qed.


(** C3 on the first member of the nested union: the token before the
    parenthesis starts before the union, and the pair is abandoned. *)
Lemma walk_aborts_or_finds_operator_witness :
  isMultilineNode nestedUnion
  ∧ walkAt nested nestedC (mkToken Identifier "C" 14 2 1) (mkToken Punctuator "(" 13 2 0)
  ∧ handler nested OptUndefined ∅ nestedUnion nestedC = Normal (∅, []).
Proof.
  assert (isMultilineNode nestedUnion) as Hmulti by (vm_compute; discriminate).
  assert (walkAt nested nestedC (mkToken Identifier "C" 14 2 1)
            (mkToken Punctuator "(" 13 2 0)) as Hat
    by (apply walkAt_start; reflexivity).
  split; [exact Hmulti|]. split; [exact Hat|].
  refine (proj1 (walk_aborts_or_finds_operator nested OptUndefined ∅ nestedUnion nestedC
                   _ _ Hmulti Hat)
            eq_refl (mkToken Punctuator "&" 11 1 11)
            {| Node.ptype := lit "TSUnionType"; Node.prange := (14, 19) |}
            eq_refl eq_refl _).
  vm_compute. lia.
Defined.

(** C4 on the outer pair of the two sums: the operand [c] and the
    left-context token [b] start on the same line. *)
Lemma no_violation_without_continuation_witness :
  resolve sums sumsC
    = Normal (Found (mkToken Identifier "c" 8 2 4) (mkToken Punctuator "+" 6 2 2))
  ∧ Host.getTokenBefore sums (mkToken Punctuator "+" 6 2 2)
    = Some (mkToken Identifier "b" 4 2 0)
  ∧ handler sums OptUndefined ∅ sumsOuter sumsC = Normal (∅, []).
Proof.
  split; [reflexivity|]. split; [reflexivity|].
  apply (no_violation_without_continuation sums OptUndefined ∅ sumsOuter sumsC).
  right. exists (mkToken Identifier "c" 8 2 4), (mkToken Punctuator "+" 6 2 2),
    (mkToken Identifier "b" 4 2 0).
  split; [reflexivity|]. split; reflexivity.
Defined.




(** C9, as stated, fails on a line indented with a tab when the unit is two
    spaces: the target written into the fix is a tab and two spaces. *)
Lemma target_keeps_foreign_characters :
  ∃ r, analyse tabbed OptUndefined tabbedVisits = Normal [r]
       ∧ r_fixText r = [TAB; SPACE; SPACE]
       ∧ unitChar OptUndefined = SPACE
       ∧ ¬ onlyUnitChar OptUndefined (r_fixText r).
Proof.
  eexists. split; [by vm_compute|]. split; [done|]. split; [done|].
  by vm_compute.
Qed.

(** C9, as the rule computes it, on the fixed chain: its lines are indented
    with spaces only. *)
Lemma targets_repeat_unit_char_witness :
  (∀ l, l ∈ lines chainFixed → onlyUnitChar OptUndefined (matchLeadingWhiteSpace l))
  ∧ traverse chainFixed OptUndefined ∅ chainFixedVisits
    = Normal (<[3 := [SPACE; SPACE]]> ∅,
              [reportOf chainFixed OptUndefined 3 [] [SPACE; SPACE]])
  ∧ (∀ r, r ∈ [reportOf chainFixed OptUndefined 3 [] [SPACE; SPACE]] →
          onlyUnitChar OptUndefined (r_fixText r))
  ∧ (∀ ln s, (<[3 := [SPACE; SPACE]]> ∅ : gmap nat jsstring) !! ln = Some s →
             onlyUnitChar OptUndefined s).
Proof.
  assert (∀ l, l ∈ lines chainFixed →
               onlyUnitChar OptUndefined (matchLeadingWhiteSpace l)) as Hlines.
  { apply (Forall_forall (λ l, onlyUnitChar OptUndefined (matchLeadingWhiteSpace l))).
    unfold onlyUnitChar. apply (bool_decide_unpack _). vm_compute. exact I. }
  split; [exact Hlines|]. split; [reflexivity|].
  exact (targets_repeat_unit_char chainFixed OptUndefined chainFixedVisits _ _
           Hlines eq_refl).
Defined.

(** C10 on the operand in parentheses: the operand [b] is on line 3, the
    parenthesis on line 2, and the violation is on line 2. *)
Lemma violation_on_parenthesis_line_witness :
  startLine (mkToken Identifier "b" 12 3 0) = 3
  ∧ startLine (mkToken Punctuator "(" 10 2 2) = 2
  ∧ handler group OptUndefined ∅ groupSum groupB
    = Normal (<[2 := []]> ∅, [reportOf group OptUndefined 2 [SPACE; SPACE] []])
  ∧ r_loc (reportOf group OptUndefined 2 [SPACE; SPACE] [])
    = {| start := {| line := 2; column := 0 |}; end_ := {| line := 2; column := 2 |} |}
  ∧ Token.value (mkToken Punctuator "(" 10 2 2) = lit "(".
Proof.
  split; [reflexivity|]. split; [reflexivity|]. split; [reflexivity|].
  split; [reflexivity|].
  refine (proj1 (violation_on_parenthesis_line group OptUndefined ∅ groupSum groupB
                   (mkToken Identifier "b" 12 3 0) (mkToken Punctuator "(" 10 2 2)
                   (mkToken Punctuator "+" 6 1 6)
                   (<[2 := []]> ∅) [reportOf group OptUndefined 2 [SPACE; SPACE] []]
                   eq_refl eq_refl _ eq_refl)).
  vm_compute. discriminate.
Defined.

(** * Further properties of the rule *)

(** ** Passes *)

Section Passes.
Context (sourceCode : SourceCode) (options0 : Option0).

Implicit Types (indentCache : gmap nat jsstring) (node right : Node.t).

(** One call of [handler] that returns: nothing happened, or one violation
    was reported and its fix text was written under its line. *)
Lemma handler_step indentCache node right indentCache' reports :
  handler sourceCode options0 indentCache node right = Normal (indentCache', reports) →
  (reports = [] ∧ indentCache' = indentCache)
  ∨ ∃ tokenRight indentRight indentTarget,
      getIndentOfLine sourceCode indentCache (startLine tokenRight) = Normal indentRight
      ∧ indentTarget ≠ indentRight
      ∧ reports = [reportOf sourceCode options0 (startLine tokenRight) indentRight indentTarget]
      ∧ indentCache' = <[startLine tokenRight := indentTarget]> indentCache.
Proof.
  intros Hrun.
  destruct (handler_Normal _ _ _ _ _ _ _ Hrun)
    as [[-> ->] | (_ & tokenRight & tokenOperator & tokenLeft & _ & _ & Hcheck)];
    [by left|].
  destruct (check_Normal _ _ _ _ _ _ _ _ _ Hcheck)
    as [(_ & -> & ->) | (_ & addition & indentLeft & indentRight & _ & _ & HindR & Hcases)];
    [by left|].
  simpl in Hcases. destruct Hcases as [(_ & -> & ->) | (Hne & -> & ->)]; [by left|].
  right. by eexists tokenRight, indentRight, _.
Qed.

(** [forEach] over the members is the traversal of one pair per member. *)
Lemma forEach_traverse node types : ∀ indentCache,
  forEach sourceCode options0 indentCache node types
  = traverse sourceCode options0 indentCache (BinaryExpression node <$> types).
Proof.
  induction types as [|type types IH]; intros indentCache; simpl; [done|].
  destruct (handler sourceCode options0 indentCache node type) as [[cache1 reports1]| |];
    simpl; [|done..].
  by rewrite IH.
Qed.

(** A property of the calls of [handler] that holds for no call and is
    kept by running one call after another holds for a pass. *)
Lemma traverse_invariant (P : gmap nat jsstring → gmap nat jsstring → list Report → Prop) :
  (∀ indentCache, P indentCache indentCache []) →
  (∀ cache1 cache2 cache3 reports1 reports2,
     P cache1 cache2 reports1 → P cache2 cache3 reports2 →
     P cache1 cache3 (reports1 ++ reports2)) →
  (∀ indentCache node right indentCache' reports,
     handler sourceCode options0 indentCache node right = Normal (indentCache', reports) →
     P indentCache indentCache' reports) →
  ∀ visits indentCache indentCache' reports,
    traverse sourceCode options0 indentCache visits = Normal (indentCache', reports) →
    P indentCache indentCache' reports.
Proof.
  intros Hrefl Htrans Hstep.
  assert (∀ node types indentCache indentCache' reports,
            forEach sourceCode options0 indentCache node types
              = Normal (indentCache', reports) →
            P indentCache indentCache' reports) as Heach.
  { intros node types. induction types as [|type types IH];
      intros indentCache indentCache' reports; simpl.
    - intros [= <- <-]. apply Hrefl.
    - intros ([cache1 reports1] & Hrun & Hk)%bind_Normal.
      apply bind_Normal in Hk as ([cache2 reports2] & Hrest & [= <- <-]).
      eapply Htrans; [by eapply Hstep | by apply IH]. }
  assert (∀ v indentCache indentCache' reports,
            visit sourceCode options0 indentCache v = Normal (indentCache', reports) →
            P indentCache indentCache' reports) as Hvisit.
  { intros [node rhs | node rhs | node types | node types] indentCache indentCache' reports;
      simpl; try apply Hstep;
      (destruct (1 <? length types); [apply Heach | intros [= <- <-]; apply Hrefl]). }
  induction visits as [|v visits IH]; intros indentCache indentCache' reports; simpl.
  - intros [= <- <-]. apply Hrefl.
  - intros ([cache1 reports1] & Hrun & Hk)%bind_Normal.
    apply bind_Normal in Hk as ([cache2 reports2] & Hrest & [= <- <-]).
    eapply Htrans; [by eapply Hvisit | by apply IH].
Qed.

(** X1. A pass always completes: whatever the source and the nodes
    visited, the loop of [handler] stays within the number of tokens, and
    the analysis returns its violations or throws. *)
Theorem analyse_terminates visits :
  analyse sourceCode options0 visits = Throws
  ∨ ∃ reports, analyse sourceCode options0 visits = Normal reports.
Proof.
  assert (analyse sourceCode options0 visits ≠ OutOfFuel) as Hfuel;
    [|destruct (analyse sourceCode options0 visits) as [reports| |];
      [right; by exists reports | by left | done]].
  assert (∀ node types indentCache,
            forEach sourceCode options0 indentCache node types ≠ OutOfFuel) as Heach.
  { intros node types. induction types as [|type types IH]; intros indentCache; simpl;
      [done|].
    intros [Hrun | ([cache1 reports1] & _ & Hk)]%bind_OutOfFuel;
      [by apply handler_terminates in Hrun|].
    apply bind_OutOfFuel in Hk as [Hrest | ([cache2 reports2] & _ & Hk)];
      [by apply IH in Hrest | done]. }
  assert (∀ v indentCache, visit sourceCode options0 indentCache v ≠ OutOfFuel) as Hvisit.
  { intros [node rhs | node rhs | node types | node types] indentCache; simpl;
      try apply handler_terminates; (destruct (1 <? length types); [apply Heach | done]). }
  assert (∀ indentCache, traverse sourceCode options0 indentCache visits ≠ OutOfFuel)
    as Htraverse.
  { induction visits as [|v visits IH]; intros indentCache; simpl; [done|].
    intros [Hrun | ([cache1 reports1] & _ & Hk)]%bind_OutOfFuel;
      [by apply Hvisit in Hrun|].
    apply bind_OutOfFuel in Hk as [Hrest | ([cache2 reports2] & _ & Hk)];
      [by apply IH in Hrest | done]. }
  unfold analyse.
  intros [Hrun | ([cache1 reports1] & _ & Hk)]%bind_OutOfFuel;
    [by apply Htraverse in Hrun | done].
Qed.


(** X3. A union or intersection type of two or more members is evaluated
    as one pair per member, in the order of the members and with the cache
    passed from one to the next: the visit is the pass over the same pairs
    taken as binary expressions. With fewer than two members nothing is
    evaluated. *)
Theorem members_evaluated_as_pairs indentCache node types :
  visit sourceCode options0 indentCache (TSUnionType node types)
  = visit sourceCode options0 indentCache (TSIntersectionType node types)
  ∧ visit sourceCode options0 indentCache (TSUnionType node types)
    = (if 1 <? length types
       then traverse sourceCode options0 indentCache (BinaryExpression node <$> types)
       else Normal (indentCache, [])).
Proof.
  split; [done|]. simpl. destruct (1 <? length types); [apply forEach_traverse | done].
Qed.

(** X4. A pass reports at most one violation per pair: one for a binary or
    logical expression, one per member for a union or intersection type of
    two or more members. *)
Theorem reports_bounded_by_pairs visits : ∀ indentCache indentCache' reports,
  traverse sourceCode options0 indentCache visits = Normal (indentCache', reports) →
  length reports ≤ sum_list (pairCount <$> visits).
Proof.
  assert (∀ indentCache node right indentCache' reports,
            handler sourceCode options0 indentCache node right
              = Normal (indentCache', reports) →
            length reports ≤ 1) as Hone.
  { intros indentCache node right indentCache' reports Hrun.
    destruct (handler_step _ _ _ _ _ Hrun) as [[-> _] | (? & ? & ? & _ & _ & -> & _)];
      simpl; lia. }
  assert (∀ node types indentCache indentCache' reports,
            forEach sourceCode options0 indentCache node types
              = Normal (indentCache', reports) →
            length reports ≤ length types) as Heach.
  { intros node types. induction types as [|type types IH];
      intros indentCache indentCache' reports; simpl.
    - by intros [= <- <-].
    - intros ([cache1 reports1] & Hrun & Hk)%bind_Normal.
      apply bind_Normal in Hk as ([cache2 reports2] & Hrest & [= <- <-]).
      rewrite length_app. apply Hone in Hrun. apply IH in Hrest. lia. }
  induction visits as [|v visits IH]; intros indentCache indentCache' reports.
  - by intros [= <- <-].
  - change (sum_list (pairCount <$> v :: visits))
      with (pairCount v + sum_list (pairCount <$> visits)).
    simpl. intros ([cache1 reports1] & Hrun & Hk)%bind_Normal.
    apply bind_Normal in Hk as ([cache2 reports2] & Hrest & [= <- <-]).
    rewrite length_app. apply IH in Hrest.
    assert (length reports1 ≤ pairCount v); [|lia].
    destruct v as [node rhs | node rhs | node types | node types]; simpl in *;
      try (by eapply Hone);
      (destruct (1 <? length types);
         [by eapply Heach | by injection Hrun as <- <-]).
Qed.

(** X5. For each of the four kinds of node, a node that starts and ends on
    one line is visited without a violation, a change of the cache or a
    throw, whatever its operands and the tokens around it. *)
Theorem visit_single_line indentCache v :
  ¬ isMultilineNode (visitedNode v) →
  visit sourceCode options0 indentCache v = Normal (indentCache, []).
Proof.
  intros Hone.
  assert (∀ right, handler sourceCode options0 indentCache (visitedNode v) right
                   = Normal (indentCache, [])) as Hskip.
  { intros right. unfold handler.
    destruct (line (start (Node.loc (visitedNode v))) =? line (end_ (Node.loc (visitedNode v))))
      eqn:Hline; [done|].
    apply Nat.eqb_neq in Hline. by destruct Hone. }
  assert (∀ types, forEach sourceCode options0 indentCache (visitedNode v) types
                   = Normal (indentCache, [])) as Heach.
  { induction types as [|type types IH]; simpl; [done|].
    rewrite Hskip. simpl. by rewrite IH. }
  destruct v as [node rhs | node rhs | node types | node types]; simpl in *;
    try apply Hskip; (destruct (1 <? length types); [apply Heach | done]).
Qed.
End Passes.

(** ** Reading an indentation *)

Lemma matchLeadingWhiteSpace_split (s : jsstring) :
  ∃ rest, s = matchLeadingWhiteSpace s ++ rest
          ∧ whiteSpaceOnly (matchLeadingWhiteSpace s)
          ∧ startsWithoutWhiteSpace rest.
Proof.
  induction s as [|c s (rest & Hs & Hws & Hrest)]; simpl.
  - exists []. split; [done|]. split; [constructor | by intros c rest].
  - destruct (isWhiteSpace c) eqn:Hc.
    + exists rest. split; [by rewrite Hs at 1|]. split; [by constructor | done].
    + exists (c :: s). split; [done|]. split; [constructor|].
      intros c' rest' [= <- <-]. exact Hc.
Qed.

Lemma matchLeadingWhiteSpace_app (indent rest : jsstring) :
  whiteSpaceOnly indent → startsWithoutWhiteSpace rest →
  matchLeadingWhiteSpace (indent ++ rest) = indent.
Proof.
  intros Hws Hrest. induction Hws as [|c indent Hc _ IH]; simpl.
  - destruct rest as [|c rest]; [done|]. simpl. by rewrite (Hrest c rest).
  - by rewrite Hc, IH.
Qed.

Section Indentation.
Context (sourceCode : SourceCode) (options0 : Option0).

Implicit Types (indentCache : gmap nat jsstring) (node right : Node.t).

Lemma getIndentOfLine_readable indentCache ln :
  (∃ indent, getIndentOfLine sourceCode indentCache ln = Normal indent)
  ↔ lineReadable sourceCode indentCache ln.
Proof.
  unfold getIndentOfLine, lineReadable.
  destruct (indentCache !! ln) as [s|] eqn:Hs.
  { split; [intros _; left; by eexists | intros _; by eexists]. }
  destruct ln as [|k].
  { split; [by intros [? ?] | intros [[? ?] | [? _]]; [done | lia]]. }
  destruct (lines sourceCode !! k) as [l|] eqn:Hl; simpl.
  - split; [|intros _; by eexists]. intros _. right.
    apply lookup_lt_Some in Hl. lia.
  - split; [by intros [? ?]|]. intros [[? ?] | [_ Hle]]; [done|].
    apply lookup_ge_None in Hl. lia.
Qed.

(** X6. [getIndentOfLine] throws exactly on a line that is neither in the
    cache nor a line of the text (line 0, or a line past the last one); a
    line of the cache is answered from the cache even then. *)
Theorem getIndentOfLine_throws_iff indentCache ln :
  getIndentOfLine sourceCode indentCache ln = Throws
  ↔ indentCache !! ln = None ∧ (ln = 0 ∨ length (lines sourceCode) < ln).
Proof.
  pose proof (getIndentOfLine_readable indentCache ln) as Hread.
  pose proof (getIndentOfLine_not_OutOfFuel sourceCode indentCache ln) as Hfuel.
  unfold lineReadable in Hread.
  destruct (getIndentOfLine sourceCode indentCache ln) as [indent| |] eqn:Hget; [| |done].
  - split; [done|]. intros [Hnone Hout].
    destruct (proj1 Hread) as [[s Hs] | [? ?]]; [by eexists | congruence | lia].
  - split; [|done]. intros _.
    destruct (indentCache !! ln) as [s|] eqn:Hs.
    { destruct (proj2 Hread) as [? ?]; [left; by eexists | done]. }
    split; [done|].
    destruct (decide (ln = 0)) as [-> | Hpos]; [by left|]. right.
    destruct (decide (length (lines sourceCode) < ln)) as [? | Hin]; [done|].
    destruct (proj2 Hread) as [? ?]; [right; lia | done].
Qed.

(** X7. For a line of the text that is not in the cache, the indentation
    read is the leading white space of the line: the line is the
    indentation followed by a rest, the indentation holds white space
    only, and the rest is empty or begins with another character. *)
Theorem getIndentOfLine_leading_white_space indentCache k l :
  indentCache !! S k = None →
  lines sourceCode !! k = Some l →
  ∃ indent rest,
    getIndentOfLine sourceCode indentCache (S k) = Normal indent
    ∧ l = indent ++ rest
    ∧ whiteSpaceOnly indent
    ∧ startsWithoutWhiteSpace rest.
Proof.
  intros Hnone Hl. unfold getIndentOfLine. rewrite Hnone, Hl. simpl.
  destruct (matchLeadingWhiteSpace_split l) as (rest & Heq & Hws & Hrest).
  by exists (matchLeadingWhiteSpace l), rest.
Qed.

Lemma getTargetIndent_whiteSpaceOnly indent addition subtraction :
  whiteSpaceOnly indent →
  whiteSpaceOnly (getTargetIndent options0 indent addition subtraction).
Proof.
  intros Hindent. unfold getTargetIndent, whiteSpaceOnly.
  rewrite indentStr_unit, subtractionIndent_drop.
  destruct (addition && negb subtraction).
  - apply Forall_app. split; [done|]. apply Forall_replicate.
    by destruct options0.
  - destruct (negb addition && subtraction); [by apply Forall_drop | done].
Qed.

Lemma getIndentOfLine_whiteSpaceOnly indentCache ln indent :
  cacheWhiteSpaceOnly indentCache →
  getIndentOfLine sourceCode indentCache ln = Normal indent →
  whiteSpaceOnly indent.
Proof.
  intros Hcache. unfold getIndentOfLine.
  destruct (indentCache !! ln) as [s|] eqn:Hs; [intros [= <-]; by eapply Hcache|].
  destruct ln as [|k]; [done|].
  destruct (lines sourceCode !! k) as [l|]; simpl; [|done].
  intros [= <-]. by destruct (matchLeadingWhiteSpace_split l) as (rest & _ & Hws & _).
Qed.

(** One call of [handler], with the target it wrote: the target is built
    from the indentation of a line read through the cache. *)
Lemma handler_target indentCache node right indentCache' reports :
  handler sourceCode options0 indentCache node right = Normal (indentCache', reports) →
  (reports = [] ∧ indentCache' = indentCache)
  ∨ ∃ tokenRight tokenLeft indentLeft indentRight addition subtraction,
      getIndentOfLine sourceCode indentCache (startLine tokenLeft) = Normal indentLeft
      ∧ getIndentOfLine sourceCode indentCache (startLine tokenRight) = Normal indentRight
      ∧ getTargetIndent options0 indentLeft addition subtraction ≠ indentRight
      ∧ reports = [reportOf sourceCode options0 (startLine tokenRight) indentRight
                     (getTargetIndent options0 indentLeft addition subtraction)]
      ∧ indentCache' = <[startLine tokenRight
                          := getTargetIndent options0 indentLeft addition subtraction]>
                         indentCache.
Proof.
  intros Hrun.
  destruct (handler_Normal _ _ _ _ _ _ _ Hrun)
    as [[-> ->] | (_ & tokenRight & tokenOperator & tokenLeft & _ & _ & Hcheck)];
    [by left|].
  destruct (check_Normal _ _ _ _ _ _ _ _ _ Hcheck)
    as [(_ & -> & ->) | (_ & addition & indentLeft & indentRight & _ & HindL & HindR & Hcases)];
    [by left|].
  simpl in Hcases. destruct Hcases as [(_ & -> & ->) | (Hne & -> & ->)]; [by left|].
  right. by eexists tokenRight, tokenLeft, indentLeft, indentRight, addition, _.
Qed.


(** X9. The cache agrees with the text after the fix. When a violation is
    reported on a line that is read from the text, replacing the columns
    of its location by the text of its fix gives a line whose leading
    white space is exactly the target that the cache then holds for the
    line. *)
Theorem fixed_line_has_target_indent indentCache node right indentCache' r k l :
  cacheWhiteSpaceOnly indentCache →
  handler sourceCode options0 indentCache node right = Normal (indentCache', [r]) →
  reportLine r = S k →
  indentCache !! S k = None →
  lines sourceCode !! k = Some l →
  take (column (end_ (r_loc r))) l = matchLeadingWhiteSpace l
  ∧ matchLeadingWhiteSpace (r_fixText r ++ drop (column (end_ (r_loc r))) l) = r_fixText r
  ∧ indentCache' !! S k = Some (r_fixText r).
Proof.
  intros Hcache Hrun Hline Hnone Hl.
  destruct (handler_target _ _ _ _ _ Hrun)
    as [[[=] _] | (tokenRight & tokenLeft & indentLeft & indentRight & addition
                   & subtraction & HindL & HindR & _ & [= ->] & ->)].
  unfold reportLine in Hline. simpl in Hline. rewrite Hline in *. simpl.
  assert (whiteSpaceOnly (getTargetIndent options0 indentLeft addition subtraction))
    as Htarget.
  { apply getTargetIndent_whiteSpaceOnly. by eapply getIndentOfLine_whiteSpaceOnly. }
  assert (indentRight = matchLeadingWhiteSpace l) as ->.
  { unfold getIndentOfLine in HindR. rewrite Hnone, Hl in HindR. simpl in HindR.
    by injection HindR. }
  destruct (matchLeadingWhiteSpace_split l) as (rest & Heq & Hws & Hrest).
  remember (matchLeadingWhiteSpace l) as indent eqn:Hindent. clear Hindent HindR.
  rewrite Heq. split; [|split].
  - by rewrite take_app_length.
  - rewrite drop_app_length. by apply matchLeadingWhiteSpace_app.
  - by rewrite lookup_insert_eq.
Qed.
End Indentation.

(** ** The cache and the violations of a pass *)

Section CacheAndReports.
Context (sourceCode : SourceCode) (options0 : Option0).

Implicit Types (indentCache : gmap nat jsstring) (node right : Node.t).

Lemma reportOf_shaped ln indentRight indentTarget :
  reportShaped sourceCode options0 (reportOf sourceCode options0 ln indentRight indentTarget).
Proof.
  unfold reportShaped, reportOf. simpl. repeat split; try done.
  unfold Host.getIndexFromLoc. simpl. destruct ln; lia.
Qed.

(** X10. Every violation of a pass has the one message kind, a location
    on a single line that begins at column 0, a fix whose range is the
    offsets of the two ends of that location, in order, and a message
    written from the length of the text of its fix. *)
Theorem reports_shaped visits indentCache indentCache' reports :
  traverse sourceCode options0 indentCache visits = Normal (indentCache', reports) →
  ∀ r, r ∈ reports → reportShaped sourceCode options0 r.
Proof.
  apply (traverse_invariant sourceCode options0
           (λ _ _ reports, ∀ r, r ∈ reports → reportShaped sourceCode options0 r)).
  - by intros _ r ?%elem_of_nil.
  - intros _ _ _ reports1 reports2 H1 H2 r [?|?]%elem_of_app; auto.
  - intros cache node right cache' reports' Hstep r Hr.
    destruct (handler_step _ _ _ _ _ _ _ Hstep)
      as [[-> _] | (tokenRight & indentRight & indentTarget & _ & _ & -> & _)].
    + by apply elem_of_nil in Hr.
    + apply list_elem_of_singleton in Hr as ->. apply reportOf_shaped.
Qed.

(** X11. A violation always changes the indentation of its line: the text
    of its fix differs from the indentation the line had through the
    cache, the location ends at the length of that indentation, and after
    the call the line reads as the text of the fix. *)
Theorem report_changes_indentation indentCache node right indentCache' reports :
  handler sourceCode options0 indentCache node right = Normal (indentCache', reports) →
  ∀ r, r ∈ reports →
    ∃ indentRight,
      getIndentOfLine sourceCode indentCache (reportLine r) = Normal indentRight
      ∧ r_fixText r ≠ indentRight
      ∧ column (end_ (r_loc r)) = length indentRight
      ∧ getIndentOfLine sourceCode indentCache' (reportLine r) = Normal (r_fixText r).
Proof.
  intros Hstep r Hr.
  destruct (handler_step _ _ _ _ _ _ _ Hstep)
    as [[-> _] | (tokenRight & indentRight & indentTarget & HindR & Hne & -> & ->)].
  - by apply elem_of_nil in Hr.
  - apply list_elem_of_singleton in Hr as ->. exists indentRight.
    unfold reportLine. simpl. repeat split; try done.
    apply getIndentOfLine_insert_eq.
Qed.

(** X12. The cache after a pass holds, for every line, the text of the
    last fix reported on that line; a line on which nothing was reported
    keeps the entry it had, or stays absent. Entries are written by
    violations only and are never removed. *)
Theorem cache_holds_last_fix visits indentCache indentCache' reports :
  traverse sourceCode options0 indentCache visits = Normal (indentCache', reports) →
  (∀ ln, (∀ r, r ∈ reports → reportLine r ≠ ln) → indentCache' !! ln = indentCache !! ln)
  ∧ (∀ earlier r later,
       reports = earlier ++ r :: later →
       (∀ r', r' ∈ later → reportLine r' ≠ reportLine r) →
       indentCache' !! reportLine r = Some (r_fixText r)).
Proof.
  apply (traverse_invariant sourceCode options0
           (λ cache cache' reports,
              (∀ ln, (∀ r, r ∈ reports → reportLine r ≠ ln) → cache' !! ln = cache !! ln)
              ∧ (∀ earlier r later,
                   reports = earlier ++ r :: later →
                   (∀ r', r' ∈ later → reportLine r' ≠ reportLine r) →
                   cache' !! reportLine r = Some (r_fixText r)))).
  - intros cache. split; [done|]. intros earlier r later Heq. by destruct earlier.
  - intros cache1 cache2 cache3 reports1 reports2 [Hframe1 Hlast1] [Hframe2 Hlast2].
    split.
    + intros ln Hnone. rewrite Hframe2, Hframe1; [done|..];
        intros r Hr; apply Hnone, elem_of_app; auto.
    + intros earlier r later Heq Hlater.
      apply app_eq_app in Heq as [rest [[Hfirst Hsplit] | [Hfirst Hsplit]]].
      * destruct rest as [|r0 rest]; simpl in Hsplit.
        -- by apply (Hlast2 [] r later).
        -- injection Hsplit as <- Hlater'. rewrite Hframe2.
           ++ apply (Hlast1 earlier r rest); [done|].
              intros r' Hr'. apply Hlater. rewrite Hlater'. apply elem_of_app. by left.
           ++ intros r' Hr'. apply Hlater. rewrite Hlater'. apply elem_of_app. by right.
      * by apply (Hlast2 rest r later).
  - intros cache node right cache' reports' Hstep.
    destruct (handler_step _ _ _ _ _ _ _ Hstep)
      as [[-> ->] | (tokenRight & indentRight & indentTarget & _ & _ & -> & ->)].
    + split; [done|]. intros earlier r later Heq. by destruct earlier.
    + split.
      * intros ln Hnone. rewrite lookup_insert_ne; [done|].
        apply (Hnone (reportOf sourceCode options0 (startLine tokenRight)
                        indentRight indentTarget)).
        by apply list_elem_of_singleton.
      * intros earlier r later Heq _.
        destruct earlier as [|r0 earlier]; [|by destruct earlier].
        injection Heq as <- <-. unfold reportLine. simpl. by rewrite lookup_insert_eq.
Qed.
End CacheAndReports.

(** ** The tokens of a line *)

Lemma find_Some_split {A} (p : A → bool) (l : list A) (x : A) :
  List.find p l = Some x
  ↔ ∃ before after, l = before ++ x :: after
                    ∧ p x = true
                    ∧ ∀ y, y ∈ before → p y = false.
Proof.
  induction l as [|a l IH]; simpl.
  - split; [done|]. intros (before & after & Heq & _). by destruct before.
  - destruct (p a) eqn:Ha.
    + split.
      * intros [= <-]. exists [], l. split; [done|]. split; [done|].
        by intros y ?%elem_of_nil.
      * intros (before & after & Heq & Hx & Hbefore).
        destruct before as [|b before]; simplify_eq/=; [done|].
        rewrite (Hbefore b) in Ha; [done | by left].
    + rewrite IH. split.
      * intros (before & after & -> & Hx & Hbefore).
        exists (a :: before), after. split; [done|]. split; [done|].
        intros y [-> | Hy]%elem_of_cons; auto.
      * intros (before & after & Heq & Hx & Hbefore).
        destruct before as [|b before]; simplify_eq/=; [congruence|].
        exists before, after. split; [done|]. split; [done|].
        intros y Hy. apply Hbefore. by right.
Qed.

Lemma find_None_all {A} (p : A → bool) (l : list A) :
  List.find p l = None ↔ ∀ y, y ∈ l → p y = false.
Proof.
  induction l as [|a l IH]; simpl.
  - split; [by intros _ y ?%elem_of_nil | done].
  - destruct (p a) eqn:Ha.
    + split; [done|]. intros Hall. rewrite (Hall a) in Ha; [done | by left].
    + rewrite IH. split.
      * intros Hall y [-> | Hy]%elem_of_cons; auto.
      * intros Hall y Hy. apply Hall. by right.
Qed.

Section LineTokens.
Context (sourceCode : SourceCode).

(** X13. [firstTokenOfLine] gives the earliest entry of the token and
    comment stream that starts on the line, and nothing exactly when no
    entry starts on it. *)
Theorem firstTokenOfLine_earliest ln :
  (∀ tok,
     firstTokenOfLine sourceCode ln = Some tok
     ↔ ∃ before after,
         tokensAndComments sourceCode = before ++ tok :: after
         ∧ startLine tok = ln
         ∧ ∀ other, other ∈ before → startLine other ≠ ln)
  ∧ (firstTokenOfLine sourceCode ln = None
     ↔ ∀ other, other ∈ tokensAndComments sourceCode → startLine other ≠ ln).
Proof.
  unfold firstTokenOfLine, startLine. split.
  - intros tok. rewrite find_Some_split.
    split; intros (before & after & Heq & Hline & Hbefore); exists before, after;
      (split; [done|]).
    + apply Nat.eqb_eq in Hline. split; [done|].
      intros other Hin. by apply Nat.eqb_neq, Hbefore.
    + split; [by apply Nat.eqb_eq|]. intros other Hin. by apply Nat.eqb_neq, Hbefore.
  - rewrite find_None_all.
    split; intros Hall other Hin; by apply Nat.eqb_neq, Hall.
Qed.

(** X14. [lastTokenOfLine] gives the latest entry of the stream that ends
    on the line, wherever it starts (a comment or a template that began on
    an earlier line is such an entry), and nothing exactly when no entry
    ends on it. *)
Theorem lastTokenOfLine_latest ln :
  (∀ tok,
     lastTokenOfLine sourceCode ln = Some tok
     ↔ ∃ before after,
         tokensAndComments sourceCode = before ++ tok :: after
         ∧ line (end_ (Token.loc tok)) = ln
         ∧ ∀ other, other ∈ after → line (end_ (Token.loc other)) ≠ ln)
  ∧ (lastTokenOfLine sourceCode ln = None
     ↔ ∀ other, other ∈ tokensAndComments sourceCode →
                line (end_ (Token.loc other)) ≠ ln).
Proof.
  unfold lastTokenOfLine. split.
  - intros tok. rewrite find_Some_split. split.
    + intros (before & after & Heq & Hline & Hbefore).
      exists (rev after), (rev before). split; [|split].
      * rewrite <- (rev_involutive (tokensAndComments sourceCode)), Heq.
        rewrite rev_app_distr. simpl. by rewrite <- app_assoc.
      * by apply Nat.eqb_eq.
      * intros other Hin. apply Nat.eqb_neq, Hbefore.
        by apply list_elem_of_In, in_rev, list_elem_of_In.
    + intros (before & after & Heq & Hline & Hafter).
      exists (rev after), (rev before). split; [|split].
      * rewrite Heq, rev_app_distr. simpl. by rewrite <- app_assoc.
      * by apply Nat.eqb_eq.
      * intros other Hin. apply Nat.eqb_neq, Hafter.
        by apply list_elem_of_In, in_rev, list_elem_of_In.
  - rewrite find_None_all. split; intros Hall other Hin; apply Nat.eqb_neq, Hall.
    + by apply list_elem_of_In, in_rev, list_elem_of_In; rewrite rev_involutive.
    + by apply list_elem_of_In, in_rev, list_elem_of_In.
Qed.
End LineTokens.

(** ** Both booleans at once, and a unit added and removed *)

Section TieBreak.
Context (sourceCode : SourceCode) (options0 : Option0).

Implicit Types (indentCache : gmap nat jsstring) (node : Node.t) (tokenLeft : Token.t).

(** X15. The subtraction and the addition hold together only through the
    first token of the left-context line (a keyword, or [type] in a type
    alias) or through the token before the owning node: a line that ends
    in a closing parenthesis ends neither in an opening token nor in
    [||] or [&&]. *)
Theorem both_booleans_only_by_first_or_before indentCache node tokenLeft tokenBeforeAll :
  needSubtractionIndent sourceCode tokenLeft
    (lastTokenOfLine sourceCode (startLine tokenLeft)) = true →
  needAdditionIndent sourceCode indentCache node tokenLeft tokenBeforeAll
    (firstTokenOfLine sourceCode (startLine tokenLeft))
    (lastTokenOfLine sourceCode (startLine tokenLeft)) = Normal true →
  reservedWordFirst sourceCode tokenLeft
  ∨ typeAliasFirst sourceCode node tokenLeft
  ∨ openerBeforeNode sourceCode tokenLeft tokenBeforeAll.
Proof.
  unfold needSubtractionIndent. intros Hsub.
  apply andb_true_iff in Hsub as [Hsub _]. apply andb_true_iff in Hsub as [Hlast _].
  apply bool_decide_eq_true in Hlast.
  destruct (lastTokenOfLine sourceCode (startLine tokenLeft)) as [last|]; [|done].
  injection Hlast as Hlast.
  unfold needAdditionIndent. cbn [from_option]. rewrite Hlast.
  pose proof (reservedWordFirst_reflect sourceCode tokenLeft) as Ha.
  pose proof (typeAliasFirst_reflect sourceCode node tokenLeft) as Hb.
  pose proof (openerBeforeNode_reflect sourceCode tokenLeft tokenBeforeAll) as Hd.
  destruct (from_option _ false _) in Ha |- *; [intros _; left; by apply Ha|].
  destruct (from_option _ false _) in Hb |- *; [intros _; right; left; by apply Hb|].
  replace (includes [lit ":"; lit "["; lit "("; lit "<"; lit "="] (lit ")"))
    with false by reflexivity.
  destruct (includes _ _ && bool_decide _) in Hd |- *;
    [intros _; right; right; by apply Hd|].
  by replace (includes [lit "||"; lit "&&"] (lit ")")) with false by reflexivity.
Qed.

(** X16. On an indentation that repeats the unit character, one unit
    added and then removed gives the indentation back; one unit removed
    and then added gives it back when the indentation holds at least one
    unit. *)
Theorem unit_added_and_removed indent :
  onlyUnitChar options0 indent →
  getTargetIndent options0 (getTargetIndent options0 indent true false) false true = indent
  ∧ (unitWidth options0 ≤ length indent →
     getTargetIndent options0 (getTargetIndent options0 indent false true) true false
     = indent).
Proof.
  unfold onlyUnitChar, getTargetIndent. simpl.
  rewrite indentStr_unit, !subtractionIndent_drop. unfold indentUnit.
  generalize (length indent) as n. intros n ->. split.
  - rewrite <- replicate_add, drop_replicate. f_equal. lia.
  - intros Hle. rewrite drop_replicate, <- replicate_add. f_equal. lia.
Qed.
End TieBreak.

(** ** When the handler throws *)

Section Throwing.
Context (sourceCode : SourceCode) (options0 : Option0).

Implicit Types (indentCache : gmap nat jsstring) (node right : Node.t).

Lemma walk_Aborted right fuel : ∀ tokenRight tokenOperator,
  walkAt sourceCode right tokenRight tokenOperator →
  walk sourceCode fuel right tokenRight tokenOperator = Normal Aborted →
  ∃ tokenRight' tokenOperator' before owner,
    walkAt sourceCode right tokenRight' tokenOperator'
    ∧ Token.value tokenOperator' = lit "("
    ∧ Host.getTokenBefore sourceCode tokenOperator' = Some before
    ∧ Node.parent right = Some owner
    ∧ (Token.range before).1 ≤ (Node.prange owner).1.
Proof.
  induction fuel as [|fuel IH]; intros tokenRight tokenOperator Hat; simpl.
  - by destruct (bool_decide _).
  - destruct (bool_decide _) eqn:Hparen; [|done].
    apply bool_decide_eq_true in Hparen.
    destruct (Host.getTokenBefore sourceCode tokenOperator) as [before|] eqn:Hbefore;
      simpl; [|done].
    destruct (Node.parent right) as [owner|] eqn:Howner; simpl; [|done].
    destruct (_ <=? _) eqn:Hle.
    + apply Nat.leb_le in Hle. intros _. by exists tokenRight, tokenOperator, before, owner.
    + apply Nat.leb_gt in Hle. apply IH.
      by apply walkAt_skip with (tokenRight := tokenRight) (owner := owner).
Qed.

Lemma walk_Throws right fuel : ∀ tokenRight tokenOperator,
  walkAt sourceCode right tokenRight tokenOperator →
  walk sourceCode fuel right tokenRight tokenOperator = Throws →
  ∃ tokenRight' tokenOperator',
    walkAt sourceCode right tokenRight' tokenOperator'
    ∧ Token.value tokenOperator' = lit "("
    ∧ (Host.getTokenBefore sourceCode tokenOperator' = None ∨ Node.parent right = None).
Proof.
  induction fuel as [|fuel IH]; intros tokenRight tokenOperator Hat; simpl.
  - by destruct (bool_decide _).
  - destruct (bool_decide _) eqn:Hparen; [|done].
    apply bool_decide_eq_true in Hparen.
    destruct (Host.getTokenBefore sourceCode tokenOperator) as [before|] eqn:Hbefore;
      simpl; [|intros _; exists tokenRight, tokenOperator; auto].
    destruct (Node.parent right) as [owner|] eqn:Howner; simpl;
      [|intros _; exists tokenRight, tokenOperator; auto].
    destruct (_ <=? _) eqn:Hle; [done|].
    apply Nat.leb_gt in Hle. apply IH.
    by apply walkAt_skip with (tokenRight := tokenRight) (owner := owner).
Qed.

(** X17. The walk ends with an operator exactly at a position it can
    reach whose preceding token is not an opening parenthesis; the operator
    is then the token just before the operand token. *)
Theorem resolve_Found_iff right tokenRight tokenOperator :
  resolve sourceCode right = Normal (Found tokenRight tokenOperator)
  ↔ walkAt sourceCode right tokenRight tokenOperator
    ∧ Token.value tokenOperator ≠ lit "("
    ∧ Host.getTokenBefore sourceCode tokenRight = Some tokenOperator.
Proof.
  split.
  - intros [Hat Hparen]%resolve_Found. split; [done|]. split; [done|].
    inversion Hat; by subst.
  - intros (Hat & Hparen & _).
    destruct (resolve_walkAt _ _ _ _ Hat) as [_ ->].
    destruct (walkFuel sourceCode); simpl; by rewrite bool_decide_eq_false_2.
Qed.

(** X18. A pair is abandoned by the walk for one reason only: at an
    opening parenthesis before the operand, the token before it starts at
    or before the start of the parent of the operand. *)
Theorem resolve_Aborted_iff right :
  resolve sourceCode right = Normal Aborted
  ↔ ∃ tokenRight tokenOperator before owner,
      walkAt sourceCode right tokenRight tokenOperator
      ∧ Token.value tokenOperator = lit "("
      ∧ Host.getTokenBefore sourceCode tokenOperator = Some before
      ∧ Node.parent right = Some owner
      ∧ (Token.range before).1 ≤ (Node.prange owner).1.
Proof.
  split.
  - unfold resolve.
    destruct (Host.getFirstToken sourceCode right) as [first|] eqn:Hfirst; simpl; [|done].
    destruct (Host.getTokenBefore sourceCode first) as [op|] eqn:Hop; simpl; [|done].
    apply walk_Aborted. by apply walkAt_start.
  - intros (tokenRight & tokenOperator & before & owner & Hat & Hparen & Hbefore & Howner & Hle).
    destruct (resolve_walkAt _ _ _ _ Hat) as [Hlt ->].
    destruct (walkFuel sourceCode) as [|fuel]; [lia|]. simpl.
    rewrite bool_decide_eq_true_2 by done. rewrite Hbefore, Howner. simpl.
    by rewrite (proj2 (Nat.leb_le _ _)).
Qed.

(** X19. The walk throws exactly when a token or the parent it reads is
    absent: the operand has no first token, no token comes before that
    first token, or, at an opening parenthesis before the operand, no
    token comes before the parenthesis or the operand has no parent. *)
Theorem resolve_Throws_iff right :
  resolve sourceCode right = Throws
  ↔ Host.getFirstToken sourceCode right = None
    ∨ (∃ first, Host.getFirstToken sourceCode right = Some first
                ∧ Host.getTokenBefore sourceCode first = None)
    ∨ ∃ tokenRight tokenOperator,
        walkAt sourceCode right tokenRight tokenOperator
        ∧ Token.value tokenOperator = lit "("
        ∧ (Host.getTokenBefore sourceCode tokenOperator = None
           ∨ Node.parent right = None).
Proof.
  split.
  - unfold resolve.
    destruct (Host.getFirstToken sourceCode right) as [first|] eqn:Hfirst; simpl;
      [|by left].
    destruct (Host.getTokenBefore sourceCode first) as [op|] eqn:Hop; simpl;
      [|intros _; right; left; by exists first].
    intros Hthrows. right. right.
    apply walk_Throws in Hthrows; [done | by apply walkAt_start].
  - intros [Hfirst | [(first & Hfirst & Hop) | (tokenRight & tokenOperator & Hat & Hparen & Habsent)]].
    + unfold resolve. by rewrite Hfirst.
    + unfold resolve. rewrite Hfirst. simpl. by rewrite Hop.
    + destruct (resolve_walkAt _ _ _ _ Hat) as [Hlt ->].
      destruct (walkFuel sourceCode) as [|fuel]; [lia|]. simpl.
      rewrite bool_decide_eq_true_2 by done.
      destruct (Host.getTokenBefore sourceCode tokenOperator) as [before|]; simpl; [|done].
      destruct Habsent as [? | ->]; done.
Qed.

Lemma needAdditionIndent_Throws indentCache node tokenLeft before first last :
  needAdditionIndent sourceCode indentCache node tokenLeft before first last = Throws →
  ¬ lineReadable sourceCode indentCache (startLine tokenLeft).
Proof.
  unfold needAdditionIndent.
  repeat (match goal with |- context [if ?b then _ else _] => destruct b eqn:? end;
          try done).
  match goal with H : _ && _ = true |- _ => apply andb_true_iff in H as [_ Hline] end.
  apply Nat.eqb_eq in Hline. unfold startLine. rewrite <- Hline.
  intros Hthrows [indent Hind]%getIndentOfLine_readable.
  by rewrite Hind in Hthrows.
Qed.

Lemma getIndentOfLine_cases indentCache ln :
  (∃ indent, getIndentOfLine sourceCode indentCache ln = Normal indent
             ∧ lineReadable sourceCode indentCache ln)
  ∨ (getIndentOfLine sourceCode indentCache ln = Throws
     ∧ ¬ lineReadable sourceCode indentCache ln).
Proof.
  pose proof (getIndentOfLine_readable sourceCode indentCache ln) as Hread.
  pose proof (getIndentOfLine_not_OutOfFuel sourceCode indentCache ln) as Hfuel.
  destruct (getIndentOfLine sourceCode indentCache ln) as [indent| |]; [| |done].
  - left. exists indent. split; [done|]. apply Hread. by eexists.
  - right. split; [done|]. intros [indent ?]%Hread. done.
Qed.

Lemma check_Throws_iff indentCache node tokenRight tokenLeft before :
  check sourceCode options0 indentCache node tokenRight tokenLeft before = Throws
  ↔ startLine tokenRight ≠ startLine tokenLeft
    ∧ (¬ lineReadable sourceCode indentCache (startLine tokenLeft)
       ∨ ¬ lineReadable sourceCode indentCache (startLine tokenRight)).
Proof.
  unfold check. fold (startLine tokenRight) (startLine tokenLeft).
  destruct (startLine tokenRight =? startLine tokenLeft) eqn:Hline; simpl.
  { apply Nat.eqb_eq in Hline. split; [done | by intros [? _]]. }
  apply Nat.eqb_neq in Hline.
  pose proof (needAdditionIndent_Throws indentCache node tokenLeft before
                (firstTokenOfLine sourceCode (startLine tokenLeft))
                (lastTokenOfLine sourceCode (startLine tokenLeft))) as Hadd.
  pose proof (needAdditionIndent_not_OutOfFuel sourceCode indentCache node tokenLeft before
                (firstTokenOfLine sourceCode (startLine tokenLeft))
                (lastTokenOfLine sourceCode (startLine tokenLeft))) as Hfuel.
  destruct (needAdditionIndent _ _ _ _ _ _ _) as [addition| |]; simpl; [| |done].
  - destruct (getIndentOfLine_cases indentCache (startLine tokenLeft))
      as [(indentLeft & -> & HreadL) | [-> HreadL]]; simpl;
      [|split; [intros _; split; [done | by left] | done]].
    destruct (getIndentOfLine_cases indentCache (startLine tokenRight))
      as [(indentRight & -> & HreadR) | [-> HreadR]]; simpl;
      [|split; [intros _; split; [done | by right] | done]].
    split; [by destruct (bool_decide _) | intros [_ [? | ?]]; done].
  - split; [|done]. intros _. split; [done|]. left. by apply Hadd.
Qed.

End Throwing.

(** ** The further properties on the sample files *)

Lemma more_samples_wellFormed :
  wellFormed voided voidedVisits = true ∧ wellFormed oneLine oneLineVisits = true.
Proof. by vm_compute. Qed.

(** X4 on the chain: two pairs, one violation. *)
Lemma reports_bounded_by_pairs_witness :
  traverse chain OptUndefined ∅ chainVisits
    = Normal (<[2 := [SPACE; SPACE]]> ∅, [reportOf chain OptUndefined 2 [] [SPACE; SPACE]])
  ∧ length [reportOf chain OptUndefined 2 [] [SPACE; SPACE]]
    ≤ sum_list (pairCount <$> chainVisits).
Proof.
  split; [reflexivity|].
  exact (reports_bounded_by_pairs chain OptUndefined chainVisits ∅ _ _ eq_refl).
Defined.

(** X5 on the sum of one line. *)
Lemma visit_single_line_witness :
  ¬ isMultilineNode (visitedNode (BinaryExpression oneLineSum oneLineB))
  ∧ visit oneLine OptUndefined ∅ (BinaryExpression oneLineSum oneLineB) = Normal (∅, []).
Proof.
  assert (¬ isMultilineNode (visitedNode (BinaryExpression oneLineSum oneLineB))) as Hone
    by (intros Hne; by apply Hne).
  split; [exact Hone|].
  exact (visit_single_line oneLine OptUndefined ∅ (BinaryExpression oneLineSum oneLineB) Hone).
Defined.

(** X7 on the second line of the fixed chain. *)
Lemma getIndentOfLine_leading_white_space_witness :
  lines chainFixed !! 1 = Some (lit "  b ||")
  ∧ ∃ indent rest,
      getIndentOfLine chainFixed ∅ 2 = Normal indent
      ∧ lit "  b ||" = indent ++ rest
      ∧ whiteSpaceOnly indent
      ∧ startsWithoutWhiteSpace rest.
Proof.
  split; [reflexivity|].
  exact (getIndentOfLine_leading_white_space chainFixed ∅ 1 (lit "  b ||") eq_refl eq_refl).
Defined.


(** X9 on the inner pair of the chain: the line [b ||] becomes the target
    of two spaces followed by [b ||]. *)
Lemma fixed_line_has_target_indent_witness :
  handler chain OptUndefined ∅ chainInner chainB
    = Normal (<[2 := [SPACE; SPACE]]> ∅, [reportOf chain OptUndefined 2 [] [SPACE; SPACE]])
  ∧ lines chain !! 1 = Some (lit "b ||")
  ∧ take 0 (lit "b ||") = matchLeadingWhiteSpace (lit "b ||")
  ∧ matchLeadingWhiteSpace ([SPACE; SPACE] ++ drop 0 (lit "b ||")) = [SPACE; SPACE]
  ∧ (<[2 := [SPACE; SPACE]]> ∅ : gmap nat jsstring) !! 2 = Some [SPACE; SPACE].
Proof.
  split; [reflexivity|]. split; [reflexivity|].
  refine (fixed_line_has_target_indent chain OptUndefined ∅ chainInner chainB
            (<[2 := [SPACE; SPACE]]> ∅) (reportOf chain OptUndefined 2 [] [SPACE; SPACE])
            1 (lit "b ||") _ eq_refl eq_refl eq_refl eq_refl).
  by intros ln s ?%lookup_empty_Some.
Defined.

(** X10 on the operand in parentheses. *)
Lemma reports_shaped_witness :
  traverse group OptUndefined ∅ groupVisits
    = Normal (<[2 := []]> ∅, [reportOf group OptUndefined 2 [SPACE; SPACE] []])
  ∧ ∀ r, r ∈ [reportOf group OptUndefined 2 [SPACE; SPACE] []] →
         reportShaped group OptUndefined r.
Proof.
  split; [reflexivity|].
  exact (reports_shaped group OptUndefined groupVisits ∅ _ _ eq_refl).
Defined.

(** X11 on the operand in parentheses: two spaces are replaced by none. *)
Lemma report_changes_indentation_witness :
  handler group OptUndefined ∅ groupSum groupB
    = Normal (<[2 := []]> ∅, [reportOf group OptUndefined 2 [SPACE; SPACE] []])
  ∧ ∀ r, r ∈ [reportOf group OptUndefined 2 [SPACE; SPACE] []] →
      ∃ indentRight,
        getIndentOfLine group ∅ (reportLine r) = Normal indentRight
        ∧ r_fixText r ≠ indentRight
        ∧ column (end_ (r_loc r)) = length indentRight
        ∧ getIndentOfLine group (<[2 := []]> ∅) (reportLine r) = Normal (r_fixText r).
Proof.
  split; [reflexivity|].
  exact (report_changes_indentation group OptUndefined ∅ groupSum groupB _ _ eq_refl).
Defined.

(** X12 on the chain: line 2 holds the fix, the other lines are absent. *)
Lemma cache_holds_last_fix_witness :
  traverse chain OptUndefined ∅ chainVisits
    = Normal (<[2 := [SPACE; SPACE]]> ∅, [reportOf chain OptUndefined 2 [] [SPACE; SPACE]])
  ∧ (∀ ln, (∀ r, r ∈ [reportOf chain OptUndefined 2 [] [SPACE; SPACE]] → reportLine r ≠ ln) →
           (<[2 := [SPACE; SPACE]]> ∅ : gmap nat jsstring) !! ln
           = (∅ : gmap nat jsstring) !! ln)
  ∧ (∀ earlier r later,
       [reportOf chain OptUndefined 2 [] [SPACE; SPACE]] = earlier ++ r :: later →
       (∀ r', r' ∈ later → reportLine r' ≠ reportLine r) →
       (<[2 := [SPACE; SPACE]]> ∅ : gmap nat jsstring) !! reportLine r
       = Some (r_fixText r)).
Proof.
  split; [reflexivity|].
  exact (cache_holds_last_fix chain OptUndefined chainVisits ∅ _ _ eq_refl).
Defined.

(** X15 on the call that ends on a line beginning with [void]: both
    booleans hold, through the keyword. *)
Lemma both_booleans_only_by_first_or_before_witness :
  needSubtractionIndent voided (mkToken Punctuator ")" 13 2 6)
    (lastTokenOfLine voided (startLine (mkToken Punctuator ")" 13 2 6))) = true
  ∧ needAdditionIndent voided ∅ voidedSum (mkToken Punctuator ")" 13 2 6)
      (Host.getTokenBeforeNode voided voidedSum)
      (firstTokenOfLine voided (startLine (mkToken Punctuator ")" 13 2 6)))
      (lastTokenOfLine voided (startLine (mkToken Punctuator ")" 13 2 6))) = Normal true
  ∧ (reservedWordFirst voided (mkToken Punctuator ")" 13 2 6)
     ∨ typeAliasFirst voided voidedSum (mkToken Punctuator ")" 13 2 6)
     ∨ openerBeforeNode voided (mkToken Punctuator ")" 13 2 6)
         (Host.getTokenBeforeNode voided voidedSum)).
Proof.
  split; [reflexivity|]. split; [reflexivity|].
  exact (both_booleans_only_by_first_or_before voided ∅ voidedSum
           (mkToken Punctuator ")" 13 2 6) (Host.getTokenBeforeNode voided voidedSum)
           eq_refl eq_refl).
Defined.

(** X16 on four spaces with the unit of two. *)
Lemma unit_added_and_removed_witness :
  onlyUnitChar OptUndefined (replicate 4 SPACE)
  ∧ getTargetIndent OptUndefined
      (getTargetIndent OptUndefined (replicate 4 SPACE) true false) false true
    = replicate 4 SPACE
  ∧ (unitWidth OptUndefined ≤ length (replicate 4 SPACE) →
     getTargetIndent OptUndefined
       (getTargetIndent OptUndefined (replicate 4 SPACE) false true) true false
     = replicate 4 SPACE).
Proof.
  split; [reflexivity|].
  exact (unit_added_and_removed OptUndefined (replicate 4 SPACE) eq_refl).
Defined.

(** ** The option, and what a pair reads *)

Section Options.
Context (sourceCode : SourceCode).

Implicit Types (indentCache : gmap nat jsstring) (node right : Node.t).

Lemma handler_default indentCache node right :
  handler sourceCode OptUndefined indentCache node right
  = handler sourceCode (OptNumber 2) indentCache node right.
Proof. reflexivity. Qed.

(** X21. Without an option the rule is the rule with the unit of two
    spaces: a pass gives the same violations, with the same messages and
    fixes, or throws alike. *)
Theorem default_unit_is_two_spaces visits :
  analyse sourceCode OptUndefined visits = analyse sourceCode (OptNumber 2) visits.
Proof.
  assert (∀ node types indentCache,
            forEach sourceCode OptUndefined indentCache node types
            = forEach sourceCode (OptNumber 2) indentCache node types) as Heach.
  { intros node types. induction types as [|type types IH]; intros indentCache; simpl;
      [done|].
    rewrite handler_default.
    destruct (handler sourceCode (OptNumber 2) indentCache node type)
      as [[cache1 reports1]| |]; simpl; [|done..].
    by rewrite IH. }
  assert (∀ indentCache,
            traverse sourceCode OptUndefined indentCache visits
            = traverse sourceCode (OptNumber 2) indentCache visits) as Htraverse.
  { induction visits as [|v visits IH]; intros indentCache; simpl; [done|].
    assert (visit sourceCode OptUndefined indentCache v
            = visit sourceCode (OptNumber 2) indentCache v) as ->.
    { destruct v as [node rhs | node rhs | node types | node types]; simpl;
        try apply handler_default; by rewrite Heach. }
    destruct (visit sourceCode (OptNumber 2) indentCache v) as [[cache1 reports1]| |];
      simpl; [|done..].
    by rewrite IH. }
  unfold analyse. by rewrite Htraverse.
Qed.

(** A violation, with the pair it comes from and the left indentation its
    target is built on. *)
Lemma handler_left_context options0 indentCache node right indentCache' reports r :
  handler sourceCode options0 indentCache node right = Normal (indentCache', reports) →
  r ∈ reports →
  ∃ tokenRight tokenOperator tokenLeft indentLeft,
    resolve sourceCode right = Normal (Found tokenRight tokenOperator)
    ∧ Host.getTokenBefore sourceCode tokenOperator = Some tokenLeft
    ∧ reportLine r = startLine tokenRight
    ∧ startLine tokenRight ≠ startLine tokenLeft
    ∧ getIndentOfLine sourceCode indentCache (startLine tokenLeft) = Normal indentLeft
    ∧ ∃ addition subtraction,
        r_fixText r = getTargetIndent options0 indentLeft addition subtraction.
Proof.
  intros Hrun Hr.
  destruct (handler_Normal _ _ _ _ _ _ _ Hrun)
    as [[_ ->] | (_ & tokenRight & tokenOperator & tokenLeft & Hres & Hleft & Hcheck)];
    [by apply elem_of_nil in Hr|].
  destruct (check_Normal _ _ _ _ _ _ _ _ _ Hcheck)
    as [(_ & _ & ->) | (Hline & addition & indentLeft & indentRight & _ & HindL & _ & Hcases)];
    [by apply elem_of_nil in Hr|].
  simpl in Hcases. destruct Hcases as [(_ & _ & ->) | (_ & _ & ->)];
    [by apply elem_of_nil in Hr|].
  apply list_elem_of_singleton in Hr as ->.
  exists tokenRight, tokenOperator, tokenLeft, indentLeft.
  do 5 (split; [done|]). by eexists _, _.
Qed.

(** X22. The text of every fix is built on the indentation of the line of
    the left-context token, read through the cache, and on nothing else:
    it is that indentation, that indentation followed by one unit, or that
    indentation without its first unit-width characters. The line fixed is
    the line of the operand token, another line than the left one. *)
Theorem fix_built_on_left_indentation options0 indentCache node right indentCache' reports r :
  handler sourceCode options0 indentCache node right = Normal (indentCache', reports) →
  r ∈ reports →
  ∃ tokenRight tokenOperator tokenLeft indentLeft,
    resolve sourceCode right = Normal (Found tokenRight tokenOperator)
    ∧ Host.getTokenBefore sourceCode tokenOperator = Some tokenLeft
    ∧ reportLine r = startLine tokenRight
    ∧ startLine tokenRight ≠ startLine tokenLeft
    ∧ getIndentOfLine sourceCode indentCache (startLine tokenLeft) = Normal indentLeft
    ∧ (r_fixText r = indentLeft
       ∨ r_fixText r = indentLeft ++ indentUnit options0
       ∨ r_fixText r = drop (unitWidth options0) indentLeft).
Proof.
  intros Hrun Hr.
  destruct (handler_left_context _ _ _ _ _ _ _ Hrun Hr)
    as (tokenRight & tokenOperator & tokenLeft & indentLeft & Hres & Hleft & Hline & Hne
        & HindL & addition & subtraction & ->).
  exists tokenRight, tokenOperator, tokenLeft, indentLeft.
  do 5 (split; [done|]).
  unfold getTargetIndent. rewrite indentStr_unit, subtractionIndent_drop.
  destruct addition, subtraction; simpl; auto.
Qed.

(** X23. With a unit of zero spaces no unit is added or removed: the text
    of every fix is the indentation of the line of the left-context token,
    so a continuation line is asked to be indented as that line is. *)
Theorem zero_unit_copies_left_indentation indentCache node right indentCache' reports r :
  handler sourceCode (OptNumber 0) indentCache node right = Normal (indentCache', reports) →
  r ∈ reports →
  ∃ tokenRight tokenOperator tokenLeft,
    resolve sourceCode right = Normal (Found tokenRight tokenOperator)
    ∧ Host.getTokenBefore sourceCode tokenOperator = Some tokenLeft
    ∧ reportLine r = startLine tokenRight
    ∧ getIndentOfLine sourceCode indentCache (startLine tokenLeft) = Normal (r_fixText r).
Proof.
  intros Hrun Hr.
  destruct (handler_left_context _ _ _ _ _ _ _ Hrun Hr)
    as (tokenRight & tokenOperator & tokenLeft & indentLeft & Hres & Hleft & Hline & _
        & HindL & addition & subtraction & ->).
  exists tokenRight, tokenOperator, tokenLeft. do 3 (split; [done|]).
  rewrite HindL. f_equal. unfold getTargetIndent. simpl.
  destruct addition, subtraction; simpl; by rewrite ?app_nil_r.
Qed.

Lemma getIndentOfLine_agree cache1 cache2 ln :
  cache1 !! ln = cache2 !! ln →
  getIndentOfLine sourceCode cache1 ln = getIndentOfLine sourceCode cache2 ln.
Proof. intros Heq. unfold getIndentOfLine. by rewrite Heq. Qed.

Lemma needAdditionIndent_agree cache1 cache2 node tokenLeft before first last :
  cache1 !! startLine tokenLeft = cache2 !! startLine tokenLeft →
  needAdditionIndent sourceCode cache1 node tokenLeft before first last
  = needAdditionIndent sourceCode cache2 node tokenLeft before first last.
Proof.
  intros Heq. unfold needAdditionIndent.
  repeat (match goal with |- context [if ?b then _ else _] => destruct b eqn:? end;
          try done).
  match goal with H : _ && _ = true |- _ => apply andb_true_iff in H as [_ Hline] end.
  apply Nat.eqb_eq in Hline. unfold startLine in Heq. rewrite <- Hline in Heq.
  by rewrite (getIndentOfLine_agree cache1 cache2).
Qed.

(** X24. The evaluation of a pair reads the cache at two lines only, the
    line of the left-context token and the line of the operand token: from
    two caches that agree on these lines the handler reports the same
    violations, or throws from both. *)
Theorem handler_reads_two_lines options0 cache1 cache2 node right :
  (∀ tokenRight tokenOperator tokenLeft,
     resolve sourceCode right = Normal (Found tokenRight tokenOperator) →
     Host.getTokenBefore sourceCode tokenOperator = Some tokenLeft →
     cache1 !! startLine tokenLeft = cache2 !! startLine tokenLeft
     ∧ cache1 !! startLine tokenRight = cache2 !! startLine tokenRight) →
  match handler sourceCode options0 cache1 node right,
        handler sourceCode options0 cache2 node right with
  | Normal (_, reports1), Normal (_, reports2) => reports1 = reports2
  | Throws, Throws => True
  | _, _ => False
  end.
Proof.
  intros Hagree. unfold handler.
  destruct (_ =? _); [done|].
  destruct (resolve sourceCode right) as [[|tokenRight tokenOperator]| |] eqn:Hres;
    simpl; [done| |done|by apply resolve_terminates in Hres].
  unfold evaluate.
  destruct (Host.getTokenBefore sourceCode tokenOperator) as [tokenLeft|] eqn:Hleft;
    simpl; [|done].
  destruct (Hagree _ _ _ eq_refl Hleft) as [HL HR].
  unfold check. destruct (negb (negb _)); [done|].
  unfold startLine in HR. pose proof HL as HL'. unfold startLine in HL'.
  rewrite (needAdditionIndent_agree cache1 cache2) by done.
  pose proof (needAdditionIndent_not_OutOfFuel sourceCode cache2 node tokenLeft
                (Host.getTokenBeforeNode sourceCode node)
                (firstTokenOfLine sourceCode (line (start (Token.loc tokenLeft))))
                (lastTokenOfLine sourceCode (line (start (Token.loc tokenLeft))))) as Hfuel.
  destruct (needAdditionIndent _ _ _ _ _ _ _) as [addition| |]; simpl; [|done..].
  rewrite (getIndentOfLine_agree cache1 cache2 _ HL').
  pose proof (getIndentOfLine_not_OutOfFuel sourceCode cache2
                (line (start (Token.loc tokenLeft)))) as HfuelL.
  destruct (getIndentOfLine sourceCode cache2 (line (start (Token.loc tokenLeft))))
    as [indentLeft| |]; simpl; [|done..].
  rewrite (getIndentOfLine_agree cache1 cache2 _ HR).
  pose proof (getIndentOfLine_not_OutOfFuel sourceCode cache2
                (line (start (Token.loc tokenRight)))) as HfuelR.
  destruct (getIndentOfLine sourceCode cache2 (line (start (Token.loc tokenRight))))
    as [indentRight| |]; simpl; [|done..].
  by destruct (bool_decide _).
Qed.
End Options.

(** X22 on the tab-indented condition: the fix is the tab of the left line
    followed by the unit of two spaces. *)
Lemma fix_built_on_left_indentation_witness :
  handler tabbed OptUndefined ∅ tabbedAnd tabbedB
    = Normal (<[2 := [TAB; SPACE; SPACE]]> ∅,
              [reportOf tabbed OptUndefined 2 [] [TAB; SPACE; SPACE]])
  ∧ ∃ tokenRight tokenOperator tokenLeft indentLeft,
      resolve tabbed tabbedB = Normal (Found tokenRight tokenOperator)
      ∧ Host.getTokenBefore tabbed tokenOperator = Some tokenLeft
      ∧ reportLine (reportOf tabbed OptUndefined 2 [] [TAB; SPACE; SPACE])
        = startLine tokenRight
      ∧ startLine tokenRight ≠ startLine tokenLeft
      ∧ getIndentOfLine tabbed ∅ (startLine tokenLeft) = Normal indentLeft
      ∧ (r_fixText (reportOf tabbed OptUndefined 2 [] [TAB; SPACE; SPACE]) = indentLeft
         ∨ r_fixText (reportOf tabbed OptUndefined 2 [] [TAB; SPACE; SPACE])
           = indentLeft ++ indentUnit OptUndefined
         ∨ r_fixText (reportOf tabbed OptUndefined 2 [] [TAB; SPACE; SPACE])
           = drop (unitWidth OptUndefined) indentLeft).
Proof.
  split; [reflexivity|].
  refine (fix_built_on_left_indentation tabbed OptUndefined ∅ tabbedAnd tabbedB _ _
            (reportOf tabbed OptUndefined 2 [] [TAB; SPACE; SPACE]) eq_refl _).
  apply list_elem_of_here.
Defined.

(** X23 on the tab-indented condition with a unit of zero: the fix is the
    tab of the left line. *)
Lemma zero_unit_copies_left_indentation_witness :
  handler tabbed (OptNumber 0) ∅ tabbedAnd tabbedB
    = Normal (<[2 := [TAB]]> ∅, [reportOf tabbed (OptNumber 0) 2 [] [TAB]])
  ∧ ∃ tokenRight tokenOperator tokenLeft,
      resolve tabbed tabbedB = Normal (Found tokenRight tokenOperator)
      ∧ Host.getTokenBefore tabbed tokenOperator = Some tokenLeft
      ∧ reportLine (reportOf tabbed (OptNumber 0) 2 [] [TAB]) = startLine tokenRight
      ∧ getIndentOfLine tabbed ∅ (startLine tokenLeft)
        = Normal (r_fixText (reportOf tabbed (OptNumber 0) 2 [] [TAB])).
Proof.
  split; [reflexivity|].
  refine (zero_unit_copies_left_indentation tabbed ∅ tabbedAnd tabbedB _ _
            (reportOf tabbed (OptNumber 0) 2 [] [TAB]) eq_refl _).
  apply list_elem_of_here.
Defined.

(** X24 on the inner pair of the chain: an entry for line 7 changes
    nothing. *)
Lemma handler_reads_two_lines_witness :
  match handler chain OptUndefined ∅ chainInner chainB,
        handler chain OptUndefined (<[7 := [TAB]]> ∅) chainInner chainB with
  | Normal (_, reports1), Normal (_, reports2) => reports1 = reports2
  | Throws, Throws => True
  | _, _ => False
  end.
Proof.
  apply (handler_reads_two_lines chain OptUndefined ∅ (<[7 := [TAB]]> ∅) chainInner chainB).
  intros tokenRight tokenOperator tokenLeft Hres Hleft.
  vm_compute in Hres. injection Hres as <- <-.
  vm_compute in Hleft. injection Hleft as <-.
  split; reflexivity.
Defined.
